(** * Collocation scoring of quanteda (src/sequences_mt.cpp)

    A shallow embedding of the sequence counter, the bit comparator, the two
    Blaheta-Johnson estimators, the candidate estimator and the pipeline
    driver, followed by the properties established about them.

    Conventions of the embedding.
    - [unsigned int] tokens are [N]; token [0] is the padding id.
    - [std::size_t] loop indices and vector sizes are [nat]; where the source
      subtracts two [size_t] values the 64-bit wrap-around is written out
      ([size_t_sub]).
    - [int] is a [Z] in the range [INT_MIN..INT_MAX]; a conversion from
      [double] to [int] whose value does not fit is undefined behaviour and
      is modelled as [None].
    - A finite [double] is idealised as a real number: rounding and overflow
      are not modelled, and neither is a failing allocation.  A [double] that may be NaN or infinite is an
      [option R], with [None] standing for "no finite value".
    - The unordered map [MapNgrams] is a [gmap] from n-grams to counts.
    - The container types are declared in quanteda.h, which is not among the
      sources.  [Text] and [Ngram] are vectors of [unsigned int] (they are
      passed to [match_bit2]), [IntParams] is a vector of [int] and
      [DoubleParams] a vector of [double]; the counts of the map are taken
      to be unbounded.  The parallel branch ([QUANTEDA_USE_TBB]) runs the
      same loop bodies and is not modelled: the embedding follows the
      sequential branch. *)

From Stdlib Require Import Reals Lra ZArith.
From stdpp Require Import gmap list strings.

#[local] Open Scope nat_scope.

(** ** Data model *)

Abbreviation Token := N (only parsing).
Abbreviation Text := (list N) (only parsing).
Abbreviation Texts := (list (list N)) (only parsing).
Abbreviation Ngram := (list N) (only parsing).
Abbreviation VecNgrams := (list (list N)) (only parsing).
Abbreviation MapNgrams := (gmap (list N) Z) (only parsing).
Abbreviation IntParams := (list Z) (only parsing).

(** [double]: [Some r] is the finite value [r], [None] is NaN or an infinity. *)
Abbreviation double := (option R) (only parsing).
Abbreviation DoubleParams := (list (option R)) (only parsing).

Definition INT_MIN : Z := - 2 ^ 31.
Definition INT_MAX : Z := 2 ^ 31 - 1.

(** Conversion of an integral [double] to [int]: defined only when the value
    is representable. *)
Definition double_to_int (z : Z) : option Z :=
  if decide (INT_MIN ≤ z ≤ INT_MAX)%Z then Some z else None.

(** Conversion of an [unsigned int] to [int] (binding an [unsigned int] to a
    [const int &]): modular. *)
Definition uint_to_int (z : Z) : Z :=
  if decide (z ≤ INT_MAX)%Z then z else (z - 2 ^ 32)%Z.

(** [a - b] on [std::size_t]. *)
Definition size_t_sub (a b : nat) : Z :=
  ((Z.of_nat a - Z.of_nat b) mod 2 ^ 64)%Z.

(** A loop whose body may fail, run over the values of the loop variable. *)
Fixpoint for_each {A S : Type} (body : S → A → option S) (s : S) (l : list A)
  : option S :=
  match l with
  | [] => Some s
  | x :: l' => s' ← body s x; for_each body s' l'
  end.

(** ** Bit comparator: [match_bit2] *)

(** One iteration of the loop: [if (tokens1[i] == tokens2[i]) bit += pow(2, i)].
    The sum is formed in [double] and converted back to [int]. *)
Definition match_bit2_body (tokens1 tokens2 : Ngram) (bit : Z) (i : nat)
  : option Z :=
  t1 ← tokens1 !! i;
  t2 ← tokens2 !! i;
  if decide (t1 = t2) then double_to_int (bit + 2 ^ Z.of_nat i) else Some bit.

Definition match_bit2 (tokens1 tokens2 : Ngram) : option Z :=
  let len1 := length tokens1 in
  let len2 := length tokens2 in
  for_each (match_bit2_body tokens1 tokens2) 0%Z (seq 0 (len1 `min` len2)).

(** ** Statistic estimators *)

(** [a / b], [log a] and [sqrt a] on doubles with a finite argument.  The
    values are real numbers: a quotient too large for a [double], which the
    machine turns into an infinity, is not modelled. *)
Definition fdiv (a b : R) : double :=
  if Req_dec_T b 0 then None else Some (a / b)%R.

Definition flog (a : R) : double :=
  if Rlt_dec 0 a then Some (ln a) else None.

Definition fsqrt (a : R) : double :=
  if Rle_dec 0 a then Some (sqrt a) else None.

(** [std::pow(-1, k)] for a [size_t] value [k].  The exponent is converted
    to [double]: from [2^53] on the converted value is an even integer, and
    the power is [1]. *)
Definition pow_m1 (k : Z) : R :=
  if decide (2 ^ 53 ≤ k)%Z then 1%R
  else if Z.even k then 1%R else (-1)%R.

Definition sigma_uni (counts : list R) (ntokens : nat) : double :=
  let s := 0%R in
  c0 ← counts !! 0;
  q ← fdiv (IZR (size_t_sub ntokens 1) ^ 2) c0;
  let s := (s + q)%R in
  s ← for_each (λ s b, c ← counts !! (2 ^ b); q ← fdiv 1 c; Some (s + q)%R)
        s (seq 0 ntokens);
  c ← counts !! (2 ^ ntokens - 1);
  q ← fdiv 1 c;
  fsqrt (s + q).

Definition lambda_uni (counts : list R) (ntokens : nat) : double :=
  let l := 0%R in
  c0 ← counts !! 0;
  g ← flog c0;
  let l := (l + g * IZR (size_t_sub ntokens 1))%R in
  l ← for_each (λ l b, c ← counts !! (2 ^ b); g ← flog c; Some (l - g)%R)
        l (seq 0 ntokens);
  c ← counts !! (2 ^ ntokens - 1);
  g ← flog c;
  Some (l + g)%R.

(** [bitCount]: each step of the recursion is one iteration of
    [while (n) { counter += n % 2; n >>= 1; }]. *)
Fixpoint bitCount_loop (n : positive) (counter : nat) : nat :=
  match n with
  | xH => counter + 1
  | xO n' => bitCount_loop n' (counter + 0)
  | xI n' => bitCount_loop n' (counter + 1)
  end.

Definition bitCount (n : N) : nat :=
  match n with
  | N0 => 0
  | Npos p => bitCount_loop p 0
  end.

Definition sigma_all (counts : list R) : double :=
  let n := length counts in
  let s := 0%R in
  s ← for_each (λ s b, c ← counts !! b; q ← fdiv 1 c; Some (s + q)%R)
        s (seq 0 n);
  fsqrt s.

Definition lambda_all (counts : list R) (ntokens : nat) : double :=
  let n := length counts in
  let l := 0%R in
  for_each (λ l b, c ← counts !! b; g ← flog c;
                   Some (l + pow_m1 (size_t_sub ntokens (bitCount (N.of_nat b))) * g)%R)
    l (seq 0 n).

(** ** Sequence counter: [counts] *)

(** [counts_seq[tokens_seq]++] *)
Definition increment (key : Ngram) (counts_seq : MapNgrams) : MapNgrams :=
  <[key := (default 0 (counts_seq !! key) + 1)%Z]> counts_seq.

(** How the inner loop over [j] ends: by [break] at position [j], or by
    running off the end of the text. *)
Inductive scan_end : Type :=
  | Break (j : nat) (tokens_seq : Ngram)
  | Fallthrough (tokens_seq : Ngram).

(** The inner loop, from position [j] on; [rest] is [text[j..]].  It stops at
    the first [j] where the token is [0] or [j - i >= len_max]. *)
Fixpoint counts_inner (rest : Text) (len_max i j : nat) (tokens_seq : Ngram)
  : scan_end :=
  match rest with
  | [] => Fallthrough tokens_seq
  | token :: rest' =>
      if (token =? 0)%N || (len_max <=? j - i)
      then Break j tokens_seq
      else counts_inner rest' len_max i (S j) (tokens_seq ++ [token])
  end.

(** The outer loop over [i].  The state is the table and the buffer
    [tokens_seq], which is declared outside both loops. *)
Fixpoint counts_outer (text : Text) (len_min len_max : nat) (nested : bool)
    (fuel i : nat) (st : gmap (list N) Z * list N) : gmap (list N) Z * list N :=
  match fuel with
  | 0 => st
  | S fuel' =>
      if decide (i < length text) then
        match counts_inner (drop i text) len_max i i st.2 with
        | Break j tokens_seq =>
            let counts_seq :=
              if decide (len_min ≤ length tokens_seq)
              then increment tokens_seq st.1 else st.1 in
            let i := if nested then i else j in
            counts_outer text len_min len_max nested fuel' (S i) (counts_seq, [])
        | Fallthrough tokens_seq =>
            counts_outer text len_min len_max nested fuel' (S i) (st.1, tokens_seq)
        end
      else st
  end.

Definition counts (text : Text) (counts_seq : MapNgrams)
    (len_min len_max : nat) (nested : bool) : MapNgrams :=
  if decide (length text = 0) then counts_seq
  else
    let text := text ++ [0%N] in
    let len_text := length text in
    (counts_outer text len_min len_max nested len_text 0 (counts_seq, [])).1.

(** ** Candidate estimator: [estimates] *)

(** [v[k] += x]; an index outside the vector is undefined behaviour. *)
Definition vec_add (v : list R) (k : nat) (x : R) : option (list R) :=
  if decide (k < length v) then Some (alter (λ c, c + x)%R k v) else None.

(** The body of the loop over [j] (lines 142-149). *)
Definition counts_bit_body (i : nat) (seqs : VecNgrams) (cs : IntParams)
    (counts_bit : list R) (j : nat) : option (list R) :=
  if decide (i = j) then Some counts_bit
  else
    si ← seqs !! i;
    sj ← seqs !! j;
    bit ← match_bit2 si sj;
    c ← cs !! j;
    vec_add counts_bit (Z.to_nat bit) (IZR c).

(** The contingency vector of candidate [i] (lines 140-150); [None] when its
    construction runs into undefined behaviour. *)
Definition contingency (i : nat) (seqs : VecNgrams) (cs : IntParams)
  : option (list R) :=
  si ← seqs !! i;
  let n := length si in
  let counts_bit := replicate (2 ^ n) 0.5%R in
  counts_bit ← for_each (counts_bit_body i seqs cs) counts_bit
                  (seq 0 (length seqs));
  ci ← cs !! i;
  vec_add counts_bit (2 ^ n - 1) (IZR (ci - 1)).

(** [v[k] = x]; an index outside the vector is undefined behaviour. *)
Definition vec_set (v : DoubleParams) (k : nat) (x : double)
  : option (list (option R)) :=
  if decide (k < length v) then Some (<[k := x]> v) else None.

(** [None] when the call runs into undefined behaviour. *)
Definition estimates (i : nat) (seqs : VecNgrams) (cs : IntParams)
    (ss ls : DoubleParams) (method : string) (count_min : Z)
  : option (list (option R) * list (option R)) :=
  si ← seqs !! i;
  let n := length si in
  if decide (n = 1) then Some (ss, ls)
  else
    ci ← cs !! i;
    if decide (ci < count_min)%Z then Some (ss, ls)
    else
      counts_bit ← contingency i seqs cs;
      if decide (method = "unigram")
      then
        ss ← vec_set ss i (sigma_uni counts_bit n);
        ls ← vec_set ls i (lambda_uni counts_bit n);
        Some (ss, ls)
      else
        ss ← vec_set ss i (sigma_all counts_bit);
        ls ← vec_set ls i (lambda_all counts_bit n);
        Some (ss, ls).

(** ** Pipeline driver: [qatd_cpp_sequences] *)

Record DataFrame : Type := mkDataFrame {
  collocation : list string;
  count : list Z;
  length_ : list Z;
  lambda : list (option R);
  sigma : list (option R);
  tokens : list (list N)
}.

(** The errors of the spec's taxonomy; the source raises none of them. *)
Inductive run_error : Type := InvalidRange | UnknownMethod | DegenerateSmoothing.

Inductive outcome : Type :=
  | Returned (df : DataFrame)
  | Raised (e : run_error)
  | Undefined.

(** Modelled from the spec: the constructor [DoubleParams(len)], whose type is
    declared in quanteda.h, which is not part of the sources at hand.  The
    spec's data model says that lambda and sigma "default to
    absent/undefined" for the records the estimator skips: a fresh score
    vector holds [len] absent entries. *)
Definition DoubleParams_new (len : nat) : DoubleParams := replicate len None.

(** The corpus aggregator (lines 205-215, sequential branch). *)
Definition count_texts (texts : Texts) (len_min len_max : nat) (nested : bool)
  : MapNgrams :=
  foldl (λ counts_seq text, counts text counts_seq len_min len_max nested)
    ∅ texts.

Section Driver.
(** [join], which renders an n-gram through the vocabulary, is declared in
    quanteda.h; it is a parameter of the embedding. *)
Variable join : list N → list string → string → string.

(** The table is walked in the order of [map_to_list]; the order in which
    the source walks its [std::unordered_map] is unspecified, and
    [qatd_cpp_sequences_from] below takes it as an argument. *)
Definition qatd_cpp_sequences (texts : Texts) (types_ : list string)
    (count_min : Z) (len_min len_max : nat) (method : string) (nested : bool)
  : outcome :=
  let counts_seq := count_texts texts len_min len_max nested in
  let len := size counts_seq in
  let flat := map_to_list counts_seq in
  let seqs := flat.*1 in
  let cs := flat.*2 in
  let ns := (λ s, Z.of_nat (length s)) <$> seqs in
  let ss := DoubleParams_new len in
  let ls := DoubleParams_new len in
  match for_each (λ '(ss, ls) i,
                    estimates i seqs cs ss ls method (uint_to_int count_min))
          (ss, ls) (seq 0 (length seqs)) with
  | None => Undefined
  | Some (ss, ls) =>
      Returned {| collocation := (λ s, join s types_ " ") <$> seqs;
                  count := cs;
                  length_ := ns;
                  lambda := ls;
                  sigma := ss;
                  tokens := seqs |}
  end.
End Driver.

(** ** Reference definitions

    The definitions from here to the theorems are not part of the program:
    they spell out the quantities that the statements compare it with. *)

(** The positions below both lengths at which the two sequences agree. *)
Definition matching_positions (a b : Ngram) : list nat :=
  filter (λ i, a !! i = b !! i) (seq 0 (length a `min` length b)).

(** The binary encoding [Σ 2^i] over a list of positions. *)
Definition bits_of (positions : list nat) : Z :=
  foldr (λ i acc, 2 ^ Z.of_nat i + acc)%Z 0%Z positions.

Definition bitmask (a b : Ngram) : Z := bits_of (matching_positions a b).

(** The longest prefix of [rest] that holds no boundary token, capped at
    [len_max] tokens. *)
Fixpoint run (rest : Text) (len_max : nat) : Ngram :=
  match rest, len_max with
  | token :: rest', S m => if (token =? 0)%N then [] else token :: run rest' m
  | _, _ => []
  end.

(** Closing the run that starts at position [i]: it is counted when it has at
    least [len_min] tokens. *)
Definition count_run (text : Text) (len_min len_max : nat)
    (counts_seq : MapNgrams) (i : nat) : MapNgrams :=
  let w := run (drop i text) len_max in
  if decide (len_min ≤ length w) then increment w counts_seq else counts_seq.

(** The start positions of the scan when [nested] is false: the first is
    [i], and the start after a start [i] whose run is [w] is [i + |w| + 1],
    one past the position [i + |w|] at which the run was closed. *)
Fixpoint unnested_starts (text : Text) (len_max fuel i : nat) : list nat :=
  match fuel with
  | 0 => []
  | S fuel' =>
      if decide (i < length text)
      then i :: unnested_starts text len_max fuel'
                  (i + length (run (drop i text) len_max) + 1)
      else []
  end.

(** [Σ_{b < n} f b] *)
Fixpoint big_sum (f : nat → R) (n : nat) : R :=
  match n with
  | 0 => 0%R
  | S k => (big_sum f k + f k)%R
  end.

(** [C[b]], read as a real number. *)
Definition entry (C : list R) (b : nat) : R := default 0%R (C !! b).

(** The number of set bits of [b]. *)
Definition popcount (b : N) : nat :=
  length (filter (λ i, N.testbit_nat b i = true) (seq 0 (N.size_nat b))).

Definition sigma_uni_spec (C : list R) (n : nat) : R :=
  sqrt ((INR n - 1) ^ 2 / entry C 0
        + big_sum (λ b, 1 / entry C (2 ^ b)%nat) n
        + 1 / entry C (2 ^ n - 1)%nat)%R.

Definition lambda_uni_spec (C : list R) (n : nat) : R :=
  ((INR n - 1) * ln (entry C 0)
   - big_sum (λ b, ln (entry C (2 ^ b)%nat)) n
   + ln (entry C (2 ^ n - 1)%nat))%R.

Definition sigma_all_spec (C : list R) (n : nat) : R :=
  sqrt (big_sum (λ b, 1 / entry C b)%R (2 ^ n)).

Definition lambda_all_spec (C : list R) (n : nat) : R :=
  big_sum (λ b, (-1) ^ (n - popcount (N.of_nat b))%nat * ln (entry C b))%R
    (2 ^ n).

(** The total count of the candidates [j ≠ i] among the first [m] whose
    positional match bitmask against candidate [i] is [b]; no candidate is
    left out for being short or rare. *)
Fixpoint bucket_weight (i : nat) (seqs : VecNgrams) (cs : IntParams)
    (b m : nat) : Z :=
  match m with
  | 0 => 0%Z
  | S j =>
      (bucket_weight i seqs cs b j
       + if decide (j ≠ i ∧ bitmask (default [] (seqs !! i)) (default [] (seqs !! j))
                            = Z.of_nat b)
         then default 0 (cs !! j) else 0)%Z
  end.

(** Entry [b] of the contingency vector of candidate [i]: the smoothing
    prior, the weight of the bucket, and at the all-ones index the
    self-match correction. *)
Definition contingency_spec (i : nat) (seqs : VecNgrams) (cs : IntParams)
    (b : nat) : R :=
  let n := length (default [] (seqs !! i)) in
  (0.5 + IZR (bucket_weight i seqs cs b (length seqs))
   + if decide (b = 2 ^ n - 1)%nat then IZR (default 0%Z (cs !! i) - 1)%Z else 0)%R.

(** The ranges that the specification wants rejected. *)
Definition invalid_range (len_min len_max : nat) : Prop :=
  len_min > len_max ∨ len_min = 0 ∨ len_max = 0.

(** A rendering of n-grams for closed examples; the driver's results below
    hold for any. *)
Definition join_none (tokens : list N) (types_ : list string) (delim : string)
  : string := EmptyString.

(** The data frame without rows. *)
Definition empty_frame : DataFrame :=
  {| collocation := []; count := []; length_ := []; lambda := []; sigma := [];
     tokens := [] |}.

(** Candidate [k] is skipped by the filters of [estimates]. *)
Definition skipped (seqs : VecNgrams) (cs : IntParams) (count_min : Z)
    (k : nat) : Prop :=
  ∃ s c, seqs !! k = Some s ∧ cs !! k = Some c
         ∧ (length s = 1 ∨ (c < count_min)%Z).

(** ** The workers of the parallel branch

    [counts_mt] and [estimates_mt] are function objects; a call
    [operator()(begin, end)] runs the sequential loop below over its range.
    Reading [texts[h]] outside the vector is undefined behaviour. *)

Definition counts_mt_call (texts : Texts) (counts_seq : MapNgrams)
    (len_min len_max : nat) (nested : bool) (begin end_ : nat)
  : option (gmap (list N) Z) :=
  for_each (λ counts_seq h,
              text ← texts !! h;
              Some (counts text counts_seq len_min len_max nested))
    counts_seq (seq begin (end_ - begin)).

(** [estimates_mt] keeps the threshold as an [unsigned int] and hands it to
    [estimates], which takes an [int]. *)
Definition estimates_mt_call (seqs : VecNgrams) (cs : IntParams)
    (ss ls : DoubleParams) (method : string) (count_min : Z)
    (begin end_ : nat) : option (list (option R) * list (option R)) :=
  for_each (λ '(ss, ls) i,
              estimates i seqs cs ss ls method (uint_to_int count_min))
    (ss, ls) (seq begin (end_ - begin)).

(** ** Further reference definitions *)

(** The start positions of the scan of a text: none for an empty text,
    every position of the padded text when [nested], and otherwise the
    positions that follow a closing position. *)
Definition scan_starts (text : Text) (len_max : nat) (nested : bool)
  : list nat :=
  if decide (length text = 0) then []
  else
    let padded := text ++ [0%N] in
    if nested then seq 0 (length padded)
    else unnested_starts padded len_max (length padded) 0.

(** How many of the given starts close a run equal to [key] that is long
    enough to be counted. *)
Definition hits (text : Text) (len_min len_max : nat) (key : Ngram)
    (starts : list nat) : nat :=
  length (filter (λ i, run (drop i text) len_max = key ∧ len_min ≤ length key)
            starts).

(** The number of positions of [text] at which [key] occurs. *)
Definition occurrences (key : Ngram) (text : Text) : nat :=
  length (filter (λ i, take (length key) (drop i text) = key)
            (seq 0 (length text))).

(** The sum of the entries of a vector. *)
Definition vec_sum (v : list R) : R := foldr Rplus 0%R v.

(** The sum of the counts. *)
Definition total (cs : IntParams) : Z := foldr Z.add 0%Z cs.

(** ** The driver under any iteration order

    The loop of lines 225-229 walks a [std::unordered_map], whose iteration
    order is unspecified.  [qatd_cpp_sequences] above takes the entries in
    the order of [map_to_list]; [qatd_cpp_sequences_from] is the driver from
    line 219 on, for the entries [flat] of the table in any order. *)
Section DriverRows.
Variable join : list N → list string → string → string.

Definition qatd_cpp_sequences_from (flat : list (list N * Z))
    (types_ : list string) (count_min : Z) (method : string) : outcome :=
  let len := length flat in
  let seqs := flat.*1 in
  let cs := flat.*2 in
  let ns := (λ s, Z.of_nat (length s)) <$> seqs in
  let ss := DoubleParams_new len in
  let ls := DoubleParams_new len in
  match for_each (λ '(ss, ls) i,
                    estimates i seqs cs ss ls method (uint_to_int count_min))
          (ss, ls) (seq 0 (length seqs)) with
  | None => Undefined
  | Some (ss, ls) =>
      Returned {| collocation := (λ s, join s types_ " ") <$> seqs;
                  count := cs;
                  length_ := ns;
                  lambda := ls;
                  sigma := ss;
                  tokens := seqs |}
  end.
End DriverRows.

(** Row [i] of a data frame: collocation, count, length, lambda, sigma and
    tokens. *)
Definition row_at (df : DataFrame) (i : nat)
  : option (string * Z * Z * option R * option R * list N) :=
  col ← collocation df !! i;
  c ← count df !! i;
  n ← length_ df !! i;
  l ← lambda df !! i;
  g ← sigma df !! i;
  s ← tokens df !! i;
  Some (col, c, n, l, g, s).

(** The total count of the entries of a table, other than [si] itself, whose
    match bitmask against [si] is [b]. *)
Definition key_weight (si : Ngram) (b : nat) (flat : list (list N * Z)) : Z :=
  foldr (λ '(sj, c) acc,
           ((if decide (sj ≠ si ∧ bitmask si sj = Z.of_nat b) then c else 0)
            + acc)%Z) 0%Z flat.

(** Theorems. *)

(** ** Loops *)

Lemma for_each_snoc {A S : Type} (body : S → A → option S) s l x :
  for_each body s (l ++ [x]) = s' ← for_each body s l; body s' x.
Proof.
  revert s. induction l as [|y l IH]; intros s; simpl.
  - by destruct (body s x).
  - destruct (body s y) as [s'|]; simpl; [apply IH | done].
Qed.

Lemma for_each_ext {A S : Type} (f g : S → A → option S) s l :
  (∀ s x, x ∈ l → f s x = g s x) → for_each f s l = for_each g s l.
Proof.
  revert s. induction l as [|y l IH]; intros s Hfg; simpl; [done|].
  rewrite Hfg by left.
  destruct (g s y) as [s'|]; simpl; [|done].
  apply IH. intros s'' x Hx. apply Hfg. by right.
Qed.

(** ** Bit comparator *)

Example match_bit2_ex1 : match_bit2 [1; 2; 3]%N [1; 5; 3; 4]%N = Some 5%Z.
Proof. reflexivity. Qed.

Example match_bit2_ex2 : match_bit2 [7; 8]%N [] = Some 0%Z.
Proof. reflexivity. Qed.

Lemma match_bit2_body_comm a b bit i :
  match_bit2_body a b bit i = match_bit2_body b a bit i.
Proof.
  unfold match_bit2_body.
  destruct (a !! i) as [t1|], (b !! i) as [t2|]; simpl; try done.
  destruct (decide (t1 = t2)), (decide (t2 = t1)); congruence.
Qed.

Lemma bits_of_snoc l i : bits_of (l ++ [i]) = (bits_of l + 2 ^ Z.of_nat i)%Z.
Proof.
  unfold bits_of. induction l as [|k l IH]; simpl; [lia|].
  rewrite IH. lia.
Qed.

Lemma bits_of_nonneg l : (0 ≤ bits_of l)%Z.
Proof.
  unfold bits_of. induction l as [|k l IH]; simpl; [done|].
  assert (0 < 2 ^ Z.of_nat k)%Z by (apply Z.pow_pos_nonneg; lia). lia.
Qed.

(** The positions below [n] at which [a] and [b] agree. *)
Lemma matching_prefix_S (a b : list N) n :
  filter (λ i, a !! i = b !! i) (seq 0 (S n)) =
  filter (λ i, a !! i = b !! i) (seq 0 n)
    ++ (if decide (a !! n = b !! n) then [n] else []).
Proof.
  rewrite seq_S, filter_app. simpl. f_equal.
Qed.

(** The loop of [match_bit2] after [n] iterations: it holds the encoding of
    the matches seen so far, unless that encoding left the range of [int]. *)
Lemma match_bit2_loop (a b : list N) n :
  n ≤ length a `min` length b →
  for_each (match_bit2_body a b) 0%Z (seq 0 n) =
  let m := bits_of (filter (λ i, a !! i = b !! i) (seq 0 n)) in
  if decide (m ≤ INT_MAX)%Z then Some m else None.
Proof.
  induction n as [|n IH]; intros Hn; [done|].
  rewrite matching_prefix_S, seq_S, for_each_snoc, IH by lia. clear IH. simpl.
  set (m := bits_of (filter _ (seq 0 n))).
  assert (0 ≤ m)%Z as Hm by apply bits_of_nonneg.
  assert (0 < 2 ^ Z.of_nat n)%Z as Hp by (apply Z.pow_pos_nonneg; lia).
  destruct (lookup_lt_is_Some_2 a n) as [t1 Ht1]; [lia|].
  destruct (lookup_lt_is_Some_2 b n) as [t2 Ht2]; [lia|].
  unfold match_bit2_body. rewrite Ht1, Ht2. simpl.
  destruct (decide (Some t1 = Some t2)) as [Heq|Hne].
  - rewrite bits_of_snoc. destruct (decide (t1 = t2)); [|congruence].
    unfold double_to_int, INT_MIN, INT_MAX.
    fold m. destruct (decide (m ≤ 2 ^ 31 - 1)%Z); simpl;
      repeat case_decide; try done; lia.
  - rewrite app_nil_r. destruct (decide (t1 = t2)); [congruence|].
    fold m. by destruct (decide (m ≤ INT_MAX)%Z).
Qed.

Lemma match_bit2_eq a b :
  match_bit2 a b =
  if decide (bitmask a b ≤ INT_MAX)%Z then Some (bitmask a b) else None.
Proof. unfold match_bit2. by rewrite match_bit2_loop. Qed.

Lemma bits_of_lt l n : NoDup l → (∀ i, i ∈ l → i < n) → (bits_of l < 2 ^ Z.of_nat n)%Z.
Proof.
  revert l. induction n as [|n IH]; intros l Hnd Hl.
  - destruct l as [|i l]; [done|]. specialize (Hl i ltac:(left)). lia.
  - assert (bits_of (filter (λ i, i ≠ n) l) < 2 ^ Z.of_nat n)%Z as Hlt.
    { apply IH; [by apply NoDup_filter|].
      intros i [Hi1 Hi2]%list_elem_of_filter. specialize (Hl i Hi2). lia. }
    assert (bits_of l ≤ bits_of (filter (λ i, i ≠ n) l) + 2 ^ Z.of_nat n)%Z.
    { clear Hl Hlt IH. induction Hnd as [|i l Hi Hnd IH]; simpl.
      - assert (0 < 2 ^ Z.of_nat n)%Z by (apply Z.pow_pos_nonneg; lia). lia.
      - rewrite filter_cons. destruct (decide (i ≠ n)) as [Hne|Heq]; simpl; [lia|].
        assert (i = n) as -> by (destruct (decide (i = n)); [done|contradiction]).
        assert (filter (λ i, i ≠ n) l = l) as ->.
        { clear IH Hnd. induction l as [|k l IHl]; [done|].
          rewrite filter_cons. destruct (decide (k ≠ n)) as [_|Hk].
          - f_equal. apply IHl. intros ?. apply Hi. by right.
          - exfalso. apply Hi. assert (k = n) as -> by (destruct (decide (k = n)); tauto).
            left. }
        lia. }
    rewrite Nat2Z.inj_succ, Z.pow_succ_r by lia. lia.
Qed.

Lemma bitmask_bound a b :
  (0 ≤ bitmask a b < 2 ^ Z.of_nat (length a `min` length b))%Z.
Proof.
  split; [apply bits_of_nonneg|].
  apply bits_of_lt.
  - apply NoDup_filter, NoDup_seq.
  - intros i [_ Hi]%list_elem_of_filter. apply elem_of_seq in Hi. lia.
Qed.

(** C5, as stated, at two equal sequences of 32 tokens: the encoding
    [2^32 - 1] is not an [int], the last addition overflows. *)
Lemma match_bit2_overflow :
  match_bit2 (replicate 32 1%N) (replicate 32 1%N)
  ≠ Some (bitmask (replicate 32 1%N) (replicate 32 1%N)).
Proof. vm_compute. discriminate. Qed.

(** C5 (amended): for every pair of token sequences whose match encoding
    fits in an [int], [match_bit2] returns exactly the sum of [2^i] over the
    positions [i] below both lengths at which the sequences hold equal
    tokens; positions beyond the shorter length contribute nothing. *)
Theorem match_bit2_bitmask a b :
  (bitmask a b ≤ INT_MAX)%Z → match_bit2 a b = Some (bitmask a b).
Proof. intros H. rewrite match_bit2_eq. by case_decide. Qed.

Lemma match_bit2_bitmask_witness :
  match_bit2 [1; 2; 3]%N [1; 5; 3; 4]%N = Some (bitmask [1; 2; 3]%N [1; 5; 3; 4]%N).
Proof. apply match_bit2_bitmask. vm_compute. discriminate. Defined.

(** The encoding fits whenever the shorter sequence has at most 31 tokens. *)
Lemma match_bit2_short a b :
  length a `min` length b ≤ 31 → match_bit2 a b = Some (bitmask a b).
Proof.
  intros H. rewrite match_bit2_eq. case_decide as Hm; [done|].
  exfalso. apply Hm. pose proof (bitmask_bound a b) as [_ Hlt].
  assert (2 ^ Z.of_nat (length a `min` length b) ≤ 2 ^ 31)%Z
    by (apply Z.pow_le_mono_r; lia).
  unfold INT_MAX. lia.
Qed.

(** C10: the positional match bitmask is symmetric in its two arguments. *)
Theorem match_bit2_comm a b : match_bit2 a b = match_bit2 b a.
Proof.
  unfold match_bit2. rewrite (Nat.min_comm (length b)).
  apply for_each_ext. intros s i _. apply match_bit2_body_comm.
Qed.

(** ** Sequence counter *)

Example counts_ex1 :
  counts [1; 2; 3; 0]%N ∅ 2 2 false = {[ [1; 2]%N := 1%Z ]}.
Proof. vm_compute. reflexivity. Qed.

Example counts_ex2 :
  counts [1; 2; 3; 0]%N ∅ 2 2 true = {[ [1; 2]%N := 1%Z; [2; 3]%N := 1%Z ]}.
Proof. vm_compute. reflexivity. Qed.

Example counts_ex3 : counts [5; 0]%N ∅ 1 3 false = {[ [5]%N := 1%Z ]}.
Proof. vm_compute. reflexivity. Qed.

Example counts_ex4 : counts [1]%N ∅ 0 0 false = {[ [] := 2%Z ]}.
Proof. vm_compute. reflexivity. Qed.

Lemma run_length rest len_max : length (run rest len_max) ≤ len_max.
Proof.
  revert len_max. induction rest as [|t rest IH]; intros [|m]; simpl; try lia.
  destruct (t =? 0)%N; simpl; [lia|]. specialize (IH m). lia.
Qed.

Lemma run_no_boundary rest len_max : 0%N ∉ run rest len_max.
Proof.
  revert len_max. induction rest as [|t rest IH]; intros [|m]; simpl;
    try apply not_elem_of_nil.
  destruct (N.eqb_spec t 0); [apply not_elem_of_nil|].
  intros [?|?]%elem_of_cons; [done|]. by eapply IH.
Qed.

Lemma run_prefix rest len_max : ∃ post, rest = run rest len_max ++ post.
Proof.
  revert len_max. induction rest as [|t rest IH]; intros [|m]; simpl;
    try by eexists.
  destruct (t =? 0)%N; [by eexists|].
  destruct (IH m) as [post Hpost]. exists post. simpl. by f_equal.
Qed.

(** The inner loop, on a text that still holds a boundary token, stops by
    [break] right behind the run it has collected. *)
Lemma counts_inner_run rest len_max i j tokens_seq :
  i ≤ j → 0%N ∈ rest →
  counts_inner rest len_max i j tokens_seq =
  let w := run rest (len_max - (j - i)) in
  Break (j + length w) (tokens_seq ++ w).
Proof.
  revert j tokens_seq. induction rest as [|t rest IH]; intros j buf Hij Hin.
  - by apply elem_of_nil in Hin.
  - simpl. destruct (N.eqb_spec t 0) as [->|Hne]; simpl.
    + destruct (len_max - (j - i)); simpl; by rewrite Nat.add_0_r, app_nil_r.
    + destruct (Nat.leb_spec len_max (j - i)) as [Hle|Hlt].
      * replace (len_max - (j - i)) with 0 by lia. simpl.
        by rewrite Nat.add_0_r, app_nil_r.
      * destruct (len_max - (j - i)) as [|m] eqn:Hm; [lia|].
        apply elem_of_cons in Hin as [?|Hin]; [done|].
        rewrite IH by (done || lia). simpl.
        replace (len_max - (S j - i)) with m by lia.
        rewrite <- app_assoc. simpl. f_equal. lia.
Qed.

Lemma counts_inner_ge rest len_max i j tokens_seq j' tokens_seq' :
  counts_inner rest len_max i j tokens_seq = Break j' tokens_seq' → j ≤ j'.
Proof.
  revert j tokens_seq. induction rest as [|t rest IH]; intros j buf; simpl; [done|].
  destruct ((t =? 0)%N || (len_max <=? j - i)).
  - intros [= <- _]. lia.
  - intros H%IH. lia.
Qed.

(** The outer loop needs at most [length text - i] iterations. *)
Lemma counts_outer_fuel text len_min len_max nested fuel fuel' i st :
  length text - i ≤ fuel → length text - i ≤ fuel' →
  counts_outer text len_min len_max nested fuel i st =
  counts_outer text len_min len_max nested fuel' i st.
Proof.
  revert fuel' i st. induction fuel as [|fuel IH]; intros [|fuel'] i st H1 H2; simpl.
  - done.
  - case_decide; [lia | done].
  - case_decide; [lia | done].
  - case_decide as Hi; [|done].
    destruct (counts_inner _ _ _ _ _) as [j buf|buf] eqn:Hin.
    + apply counts_inner_ge in Hin. destruct nested; apply IH; lia.
    + apply IH; lia.
Qed.

(** A padded text holds a boundary token behind every position. *)
Lemma padded_boundary (text : list N) i :
  i < length (text ++ [0%N]) → 0%N ∈ drop i (text ++ [0%N]).
Proof.
  intros Hi. rewrite length_app in Hi. simpl in Hi.
  rewrite drop_app_le by lia. apply elem_of_app. right. left.
Qed.

(** One iteration of the outer loop, entered with an empty buffer: the run
    that starts at [i] is closed at [j = i + length w], and the next start is
    [i + 1] when [nested], [j + 1] otherwise. *)
Lemma counts_outer_step text len_min len_max nested fuel i counts_seq :
  i < length text → 0%N ∈ drop i text →
  counts_outer text len_min len_max nested (S fuel) i (counts_seq, []) =
  counts_outer text len_min len_max nested fuel
    (S (if nested then i else i + length (run (drop i text) len_max)))
    (count_run text len_min len_max counts_seq i, []).
Proof.
  intros Hi Hin. simpl. case_decide; [|lia].
  rewrite counts_inner_run by done. simpl.
  rewrite Nat.sub_diag, Nat.sub_0_r. reflexivity.
Qed.

(** With [nested], every position is a start. *)
Lemma counts_outer_nested text len_min len_max fuel i counts_seq :
  (∀ k, k < length text → 0%N ∈ drop k text) →
  length text - i ≤ fuel →
  counts_outer text len_min len_max true fuel i (counts_seq, []) =
  (foldl (count_run text len_min len_max) counts_seq (seq i (length text - i)), []).
Proof.
  intros Hpad. revert i counts_seq.
  induction fuel as [|fuel IH]; intros i tbl Hfuel.
  - replace (length text - i) with 0 by lia. done.
  - destruct (decide (i < length text)) as [Hi|Hi].
    + rewrite counts_outer_step by auto. rewrite IH by lia.
      replace (length text - i) with (S (length text - S i)) by lia.
      reflexivity.
    + simpl. case_decide; [lia|].
      replace (length text - i) with 0 by lia. done.
Qed.

(** Whatever the flag, the table is obtained by closing the runs of some
    start positions, one after the other. *)
Lemma counts_outer_starts text len_min len_max nested fuel i counts_seq :
  (∀ k, k < length text → 0%N ∈ drop k text) →
  ∃ starts,
    counts_outer text len_min len_max nested fuel i (counts_seq, []) =
    (foldl (count_run text len_min len_max) counts_seq starts, []).
Proof.
  intros Hpad. revert i counts_seq.
  induction fuel as [|fuel IH]; intros i tbl.
  - by exists [].
  - destruct (decide (i < length text)) as [Hi|Hi].
    + rewrite counts_outer_step by auto.
      edestruct IH as [starts ->]. by exists (i :: starts).
    + exists []. simpl. by case_decide.
Qed.

Lemma increment_lookup_ne (key w : list N) (counts_seq : gmap (list N) Z) :
  key ≠ w → increment w counts_seq !! key = counts_seq !! key.
Proof. intros H. unfold increment. by rewrite lookup_insert_ne. Qed.

(** A key whose count changed is the run of one of the start positions, and
    it is at least [len_min] long. *)
Lemma count_run_changed (text : list N) (len_min len_max : nat) (starts : list nat)
    (counts_seq : gmap (list N) Z) (key : list N) :
  foldl (count_run text len_min len_max) counts_seq starts !! key
    ≠ counts_seq !! key →
  ∃ i, i ∈ starts ∧ key = run (drop i text) len_max ∧ len_min ≤ length key.
Proof.
  revert counts_seq. induction starts as [|i starts IH]; intros tbl; simpl; [done|].
  intros Hne.
  destruct (decide (count_run text len_min len_max tbl i !! key = tbl !! key))
    as [Heq|Hch].
  - rewrite <- Heq in Hne. apply IH in Hne as (k & ? & ? & ?).
    exists k. split; [by right | done].
  - exists i. split; [left|]. unfold count_run in Hch.
    case_decide; [|done].
    destruct (decide (key = run (drop i text) len_max)) as [->|Hk]; [done|].
    by rewrite increment_lookup_ne in Hch.
Qed.

(** A run of the padded text lies inside the text itself. *)
Lemma run_infix (text : list N) i len_max :
  ∃ pre post, text = pre ++ run (drop i (text ++ [0%N])) len_max ++ post.
Proof.
  set (w := run _ _).
  destruct (run_prefix (drop i (text ++ [0%N])) len_max) as [post Hpost].
  fold w in Hpost.
  assert (text ++ [0%N] = take i (text ++ [0%N]) ++ w ++ post) as Hsplit
    by (by rewrite <- Hpost, take_drop).
  destruct (decide (post = [])) as [->|Hpost_ne].
  - rewrite app_nil_r in Hsplit.
    destruct (decide (w = [])) as [Hw|Hw].
    + exists text, []. by rewrite Hw, !app_nil_r.
    + exfalso. apply (run_no_boundary (drop i (text ++ [0%N])) len_max). fold w.
      destruct (exists_last Hw) as (w' & x & Hwx). rewrite Hwx in Hsplit |- *.
      rewrite app_assoc in Hsplit. apply app_inj_tail in Hsplit as [_ <-].
      apply elem_of_app. right. left.
  - destruct (exists_last Hpost_ne) as (post' & x & ->).
    rewrite !app_assoc in Hsplit. apply app_inj_tail in Hsplit as [Htext _].
    exists (take i (text ++ [0%N])), post'. by rewrite <- app_assoc in Htext.
Qed.

(** C1, as stated, on the corpus of the scenario: the table of the
    specification has a key [[2; 3]] that the scan never closes. *)
Lemma count_texts_unnested_scenario_differs :
  count_texts [[1; 2; 3; 0]; [1; 2; 0]]%N 2 2 false
  ≠ {[ [1; 2]%N := 2%Z; [2; 3]%N := 1%Z ]}.
Proof.
  intros H. apply (f_equal (λ m : gmap (list N) Z, m !! [2; 3]%N)) in H.
  vm_compute in H. discriminate.
Qed.

Lemma counts_outer_unnested text len_min len_max fuel i counts_seq :
  (∀ k, k < length text → 0%N ∈ drop k text) →
  counts_outer text len_min len_max false fuel i (counts_seq, []) =
  (foldl (count_run text len_min len_max) counts_seq
     (unnested_starts text len_max fuel i), []).
Proof.
  intros Hpad. revert i counts_seq.
  induction fuel as [|fuel IH]; intros i tbl; [done|].
  destruct (decide (i < length text)) as [Hi|Hi].
  - rewrite counts_outer_step by auto. rewrite IH. simpl.
    rewrite decide_True by done. by rewrite Nat.add_1_r.
  - simpl. by rewrite !decide_False by done.
Qed.

(** C1 (amended): when [nested] is false, the scan starts at position 0, and
    after the start [i], whose run [w] of non-boundary tokens (capped at
    [len_max]) is closed at position [j = i + |w|], it resumes at [j + 1]:
    the positions inside the run and the closing position itself are never
    starts.  Consequently the corpus [[1,2,3,0]], [[1,2,0]] with
    [len_min = 2], [len_max = 2] and [nested = false] yields exactly the
    table [{[1,2]: 2}]. *)
Theorem counts_unnested_restart :
  (∀ (text : list N) (counts_seq : gmap (list N) Z) (len_min len_max : nat),
     text ≠ [] →
     let padded := text ++ [0%N] in
     counts text counts_seq len_min len_max false =
     foldl (count_run padded len_min len_max) counts_seq
       (unnested_starts padded len_max (length padded) 0))
  ∧ count_texts [[1; 2; 3; 0]; [1; 2; 0]]%N 2 2 false = {[ [1; 2]%N := 2%Z ]}.
Proof.
  split.
  - intros text tbl len_min len_max Hne padded. unfold counts.
    case_decide as Hlen; [by destruct text|].
    by rewrite counts_outer_unnested by auto using padded_boundary.
  - vm_compute. reflexivity.
Qed.

Lemma counts_unnested_restart_witness :
  counts [1; 2; 3; 0]%N ∅ 2 2 false =
  foldl (count_run [1; 2; 3; 0; 0]%N 2 2) ∅ [0; 3; 4].
Proof.
  apply (proj1 counts_unnested_restart [1; 2; 3; 0]%N ∅ 2 2). discriminate.
Defined.

(** C2, as stated, on the text of the scenario: the window [[1; 2]] is not
    counted. *)
Lemma counts_nested_scenario_misses :
  counts [1; 2; 3; 0]%N ∅ 2 3 true !! [1; 2]%N = None.
Proof. vm_compute. reflexivity. Qed.

(** C2 (amended): when [nested] is true, every position of the padded text is
    a start, and exactly one window is closed per start: the longest run of
    non-boundary tokens that begins there, capped at [len_max], counted when
    it has at least [len_min] tokens.  Shorter windows with the same start
    are not counted: the text [[1,2,3,0]] with [len_min = 2], [len_max = 3]
    increments [[1,2,3]] and [[2,3]] once each, and nothing else. *)
Theorem counts_nested_runs :
  (∀ (text : list N) (counts_seq : gmap (list N) Z) (len_min len_max : nat),
     text ≠ [] →
     counts text counts_seq len_min len_max true =
     foldl (count_run (text ++ [0%N]) len_min len_max) counts_seq
       (seq 0 (length text + 1)))
  ∧ counts [1; 2; 3; 0]%N ∅ 2 3 true
    = {[ [1; 2; 3]%N := 1%Z; [2; 3]%N := 1%Z ]}.
Proof.
  split.
  - intros text tbl len_min len_max Hne. unfold counts.
    case_decide as Hlen; [by destruct text|].
    rewrite counts_outer_nested by (auto using padded_boundary || lia).
    rewrite Nat.sub_0_r, length_app. reflexivity.
  - vm_compute. reflexivity.
Qed.

Lemma counts_nested_runs_witness :
  counts [1; 2; 3]%N ∅ 2 3 true =
  foldl (count_run [1; 2; 3; 0]%N 2 3) ∅ [0; 1; 2; 3].
Proof. apply (proj1 counts_nested_runs [1; 2; 3]%N ∅ 2 3). discriminate. Defined.

(** C9: every key whose count the sequence counter changes holds no boundary
    token and is a segment of consecutive tokens of the text; since the
    segment holds no boundary token, no counted sequence spans one.  (Each
    increment adds one to an unbounded count, so the keys whose count changes
    are exactly the keys incremented.) *)
Theorem counts_boundary_respect (text : list N) (counts_seq : gmap (list N) Z)
    (len_min len_max : nat) (nested : bool) (key : list N) :
  counts text counts_seq len_min len_max nested !! key ≠ counts_seq !! key →
  (0%N ∉ key) ∧ (∃ pre post, text = pre ++ key ++ post).
Proof.
  unfold counts. case_decide as Hlen; [done|].
  destruct (counts_outer_starts (text ++ [0%N]) len_min len_max nested
              (length (text ++ [0%N])) 0 counts_seq) as [starts ->];
    [auto using padded_boundary|].
  simpl. intros (i & _ & -> & _)%count_run_changed.
  split; [apply run_no_boundary | apply run_infix].
Qed.

Lemma counts_boundary_respect_witness :
  (0%N ∉ [1; 2]%N) ∧ (∃ pre post, [1; 2; 3; 0]%N = pre ++ [1; 2]%N ++ post).
Proof.
  apply (counts_boundary_respect [1; 2; 3; 0]%N ∅ 2 2 false [1; 2]%N).
  intros H. vm_compute in H. discriminate.
Defined.

(** ** Statistic estimators *)

Lemma fdiv_ok a b : b ≠ 0%R → fdiv a b = Some (a / b)%R.
Proof. intros H. unfold fdiv. by destruct (Req_dec_T b 0). Qed.

Lemma flog_ok a : (0 < a)%R → flog a = Some (ln a).
Proof. intros H. unfold flog. by destruct (Rlt_dec 0 a). Qed.

Lemma fsqrt_ok a : (0 <= a)%R → fsqrt a = Some (sqrt a).
Proof. intros H. unfold fsqrt. by destruct (Rle_dec 0 a). Qed.

Lemma for_each_big_sum (body : R → nat → option R) (f : nat → R) s m :
  (∀ b s, b < m → body s b = Some (s + f b)%R) →
  for_each body s (seq 0 m) = Some (s + big_sum f m)%R.
Proof.
  induction m as [|m IH]; intros Hbody.
  - simpl. f_equal. lra.
  - rewrite seq_S, for_each_snoc, IH by (intros; apply Hbody; lia). simpl.
    rewrite Hbody by lia. f_equal. lra.
Qed.

Lemma big_sum_nonneg f n : (∀ b, b < n → (0 <= f b)%R) → (0 <= big_sum f n)%R.
Proof.
  induction n as [|n IH]; intros Hf; simpl; [lra|].
  specialize (Hf n ltac:(lia)) as Hn. specialize (IH ltac:(intros; apply Hf; lia)).
  lra.
Qed.

Lemma entry_lookup (C : list R) b : b < length C → C !! b = Some (entry C b).
Proof.
  intros [c Hc]%lookup_lt_is_Some_2. unfold entry. by rewrite Hc.
Qed.

Lemma entry_pos (C : list R) b :
  (∀ c, c ∈ C → (0 < c)%R) → b < length C → (0 < entry C b)%R.
Proof.
  intros Hpos [c Hc]%lookup_lt_is_Some_2. unfold entry. rewrite Hc. simpl.
  apply Hpos. by eapply list_elem_of_lookup_2.
Qed.

Lemma inv_pos_nonneg c : (0 < c)%R → (0 <= 1 / c)%R.
Proof.
  intros H. apply Rlt_le. unfold Rdiv. rewrite Rmult_1_l.
  by apply Rinv_0_lt_compat.
Qed.

(** [bitCount] counts the set bits. *)
Lemma filter_seq_shift_length (P Q : nat → Prop) `{∀ i, Decision (P i)}
    `{∀ i, Decision (Q i)} n :
  (∀ i, P (S i) ↔ Q i) →
  length (filter P (seq 1 n)) = length (filter Q (seq 0 n)).
Proof.
  intros HPQ. rewrite <- (fmap_S_seq 0 n).
  induction (seq 0 n) as [|k l IH]; [done|].
  rewrite fmap_cons, !filter_cons.
  destruct (decide (P (S k))) as [HP|HP], (decide (Q k)) as [HQ|HQ]; simpl;
    try (by rewrite IH); exfalso; apply HPQ in HP || apply HPQ in HQ; done.
Qed.

Lemma bitCount_loop_popcount p counter :
  bitCount_loop p counter = counter + popcount (Npos p).
Proof.
  revert counter. unfold popcount.
  induction p as [p IH|p IH|]; intros counter; simpl.
  - rewrite IH.
    rewrite (filter_seq_shift_length _ (λ i, Pos.testbit_nat p i = true)) by done.
    simpl. lia.
  - rewrite IH, filter_cons_False by done.
    rewrite (filter_seq_shift_length _ (λ i, Pos.testbit_nat p i = true)) by done.
    simpl. lia.
  - done.
Qed.

Lemma bitCount_popcount b : bitCount b = popcount b.
Proof. destruct b as [|p]; [done|]. apply bitCount_loop_popcount. Qed.

Lemma size_nat_bound p n : (Zpos p < 2 ^ Z.of_nat n)%Z → Pos.size_nat p ≤ n.
Proof.
  revert n. induction p as [p IH|p IH|]; intros n Hlt; simpl.
  - destruct n as [|n]; [simpl in Hlt; lia|].
    rewrite Nat2Z.inj_succ, Z.pow_succ_r in Hlt by lia.
    specialize (IH n). lia.
  - destruct n as [|n]; [simpl in Hlt; lia|].
    rewrite Nat2Z.inj_succ, Z.pow_succ_r in Hlt by lia.
    specialize (IH n). lia.
  - destruct n as [|n]; [simpl in Hlt; lia|]. lia.
Qed.

Lemma popcount_bound b n : b < 2 ^ n → popcount (N.of_nat b) ≤ n.
Proof.
  intros Hb. unfold popcount.
  etrans; [apply length_filter|]. rewrite length_seq.
  destruct (N.of_nat b) as [|p] eqn:Hp; simpl; [lia|].
  apply size_nat_bound.
  assert (Z.of_nat b = Zpos p) as <- by lia.
  apply Nat2Z.inj_lt in Hb. by rewrite Nat2Z.inj_pow in Hb.
Qed.

Lemma pow_m1_parity k :
  (if Z.even (Z.of_nat k) then 1 else -1)%R = ((-1) ^ k)%R.
Proof.
  induction k as [|k IH]; [simpl; lra|].
  rewrite Nat2Z.inj_succ, Z.even_succ, <- Z.negb_even.
  simpl. destruct (Z.even (Z.of_nat k)); simpl; rewrite <- IH; lra.
Qed.

Lemma pow_m1_nat k :
  (Z.of_nat k < 2 ^ 53)%Z → pow_m1 (Z.of_nat k) = ((-1) ^ k)%R.
Proof.
  intros Hk. unfold pow_m1. rewrite decide_False by lia. apply pow_m1_parity.
Qed.

Lemma pow2_size_t n : (Z.of_nat (2 ^ n) < 2 ^ 64)%Z → n < 64.
Proof.
  intros H. destruct (decide (n < 64)) as [|Hge]; [done|]. exfalso.
  assert (2 ^ 64 ≤ 2 ^ n) as Hle by (apply Nat.pow_le_mono_r; lia).
  apply Nat2Z.inj_le in Hle. rewrite !Nat2Z.inj_pow in Hle.
  rewrite Nat2Z.inj_pow in H. simpl in Hle. lia.
Qed.

Lemma size_t_sub_small a b :
  b ≤ a → (Z.of_nat a < 2 ^ 64)%Z → size_t_sub a b = Z.of_nat (a - b).
Proof. intros Hle Ha. unfold size_t_sub. rewrite Z.mod_small; lia. Qed.

Section Estimators.
Variables (C : list R) (n : nat).
Hypothesis Hlen : length C = 2 ^ n.
Hypothesis Hpos : ∀ c, c ∈ C → (0 < c)%R.

Lemma unit_index_lt b : b < n → 2 ^ b < length C.
Proof. intros Hb. rewrite Hlen. apply Nat.pow_lt_mono_r; lia. Qed.

Lemma last_index_lt : 2 ^ n - 1 < length C.
Proof. pose proof (Nat.pow_nonzero 2 n). lia. Qed.

Lemma zero_index_lt : 0 < length C.
Proof. pose proof last_index_lt. lia. Qed.

Lemma read_entry b : b < length C → C !! b = Some (entry C b) ∧ (0 < entry C b)%R.
Proof. intros Hb. split; [by apply entry_lookup | by apply entry_pos]. Qed.

(** What the four functions compute, with the [size_t] arithmetic of the
    source left as it is. *)
Lemma sigma_uni_value :
  sigma_uni C n =
  Some (sqrt (IZR (size_t_sub n 1) ^ 2 / entry C 0
              + big_sum (λ b, 1 / entry C (2 ^ b)%nat) n
              + 1 / entry C (2 ^ n - 1)%nat))%R.
Proof.
  unfold sigma_uni.
  destruct (read_entry 0 zero_index_lt) as [-> H0].
  destruct (read_entry _ last_index_lt) as [Hl Hl0].
  simpl. rewrite fdiv_ok by lra. simpl.
  rewrite (for_each_big_sum _ (λ b, 1 / entry C (2 ^ b))%R); last first.
  { intros b s Hb. destruct (read_entry _ (unit_index_lt b Hb)) as [-> Hb0].
    simpl. rewrite fdiv_ok by lra. done. }
  simpl. rewrite Hl. simpl. rewrite fdiv_ok by lra. simpl.
  assert (0 <= big_sum (λ b, 1 / entry C (2 ^ b)) n)%R as Hsum.
  { apply big_sum_nonneg. intros b Hb. apply inv_pos_nonneg.
    by apply read_entry, unit_index_lt. }
  pose proof (inv_pos_nonneg _ H0). pose proof (inv_pos_nonneg _ Hl0).
  assert (0 <= IZR (size_t_sub n 1) ^ 2 / entry C 0)%R as Hq.
  { unfold Rdiv. apply Rmult_le_pos; [apply pow2_ge_0|].
    apply Rlt_le. by apply Rinv_0_lt_compat. }
  rewrite fsqrt_ok by lra. do 2 f_equal. lra.
Qed.

Lemma lambda_uni_value :
  lambda_uni C n =
  Some (ln (entry C 0) * IZR (size_t_sub n 1)
        - big_sum (λ b, ln (entry C (2 ^ b)%nat)) n
        + ln (entry C (2 ^ n - 1)%nat))%R.
Proof.
  unfold lambda_uni.
  destruct (read_entry 0 zero_index_lt) as [-> H0].
  destruct (read_entry _ last_index_lt) as [Hl Hl0].
  simpl. rewrite flog_ok by done. simpl.
  rewrite (for_each_big_sum _ (λ b, - ln (entry C (2 ^ b)))%R); last first.
  { intros b s Hb. destruct (read_entry _ (unit_index_lt b Hb)) as [-> Hb0].
    simpl. rewrite flog_ok by done. simpl. f_equal; lra. }
  simpl. rewrite Hl. simpl. rewrite flog_ok by done. simpl.
  f_equal.
  assert (∀ m, big_sum (λ b, - ln (entry C (2 ^ b))) m
               = - big_sum (λ b, ln (entry C (2 ^ b))) m)%R as ->.
  { induction m as [|m IH]; simpl; [lra | rewrite IH; lra]. }
  lra.
Qed.

Lemma sigma_all_value :
  sigma_all C = Some (sqrt (big_sum (λ b, 1 / entry C b)%R (2 ^ n))).
Proof.
  unfold sigma_all.
  rewrite (for_each_big_sum _ (λ b, 1 / entry C b)%R); last first.
  { intros b s Hb. destruct (read_entry b Hb) as [-> Hb0].
    simpl. rewrite fdiv_ok by lra. done. }
  simpl. rewrite Hlen.
  assert (0 <= big_sum (λ b, 1 / entry C b) (2 ^ n))%R as Hsum.
  { apply big_sum_nonneg. intros b Hb. apply inv_pos_nonneg.
    apply read_entry. by rewrite Hlen. }
  rewrite fsqrt_ok by lra. do 2 f_equal. lra.
Qed.

Lemma lambda_all_value :
  lambda_all C n =
  Some (big_sum (λ b, pow_m1 (size_t_sub n (popcount (N.of_nat b)))
                      * ln (entry C b))%R (2 ^ n)).
Proof.
  unfold lambda_all.
  rewrite (for_each_big_sum _
    (λ b, pow_m1 (size_t_sub n (popcount (N.of_nat b))) * ln (entry C b))%R);
    last first.
  { intros b s Hb. destruct (read_entry b Hb) as [-> Hb0].
    simpl. rewrite flog_ok by done. simpl. by rewrite bitCount_popcount. }
  rewrite Hlen. f_equal. lra.
Qed.

(** Where no subtraction wraps around, these are the formulas of the
    specification. *)
Hypothesis Hsize : (Z.of_nat (length C) < 2 ^ 64)%Z.

Lemma ntokens_size_t : (Z.of_nat n < 2 ^ 64)%Z.
Proof. pose proof (Nat.pow_gt_lin_r 2 n). lia. Qed.

Lemma sigma_uni_ok : 1 ≤ n → sigma_uni C n = Some (sigma_uni_spec C n).
Proof.
  intros Hn. rewrite sigma_uni_value. unfold sigma_uni_spec.
  rewrite size_t_sub_small by (done || apply ntokens_size_t).
  by rewrite <- INR_IZR_INZ, minus_INR by done.
Qed.

Lemma lambda_uni_ok : 1 ≤ n → lambda_uni C n = Some (lambda_uni_spec C n).
Proof.
  intros Hn. rewrite lambda_uni_value. unfold lambda_uni_spec.
  rewrite size_t_sub_small by (done || apply ntokens_size_t).
  rewrite <- INR_IZR_INZ, minus_INR by done. simpl (INR 1). f_equal. lra.
Qed.

Lemma sigma_all_ok : sigma_all C = Some (sigma_all_spec C n).
Proof. apply sigma_all_value. Qed.

Lemma big_sum_ext f g m :
  (∀ b, b < m → f b = g b) → big_sum f m = big_sum g m.
Proof.
  induction m as [|m IH]; intros Hfg; simpl; [done|].
  rewrite IH, Hfg by (intros; try apply Hfg; lia). done.
Qed.

Lemma lambda_all_ok : lambda_all C n = Some (lambda_all_spec C n).
Proof.
  rewrite lambda_all_value. unfold lambda_all_spec. f_equal.
  apply big_sum_ext. intros b Hb.
  assert (n < 64) by (apply pow2_size_t; by rewrite <- Hlen).
  rewrite size_t_sub_small, pow_m1_nat;
    [done | lia | by apply popcount_bound | apply ntokens_size_t].
Qed.
End Estimators.

(** C4, as stated, at a vector of size [2^0]: [ntokens - 1] wraps around to
    [2^64 - 1] where the formula has [n - 1 = -1]. *)
Lemma sigma_uni_zero_tokens : sigma_uni [2%R] 0 ≠ Some (sigma_uni_spec [2%R] 0).
Proof.
  unfold sigma_uni, sigma_uni_spec, entry. simpl.
  change (size_t_sub 0 1) with 18446744073709551615%Z.
  rewrite !fdiv_ok by lra. simpl.
  rewrite fsqrt_ok by lra.
  intros [= H]. apply sqrt_inj in H; lra.
Qed.

(** C4 (amended): for every contingency vector [C] of size [2^n] with
    [n ≥ 1] and all entries positive, the unigram estimator returns
    [sigma = sqrt((n-1)^2/C[0] + Σ_{b<n} 1/C[2^b] + 1/C[2^n-1])] and
    [lambda = (n-1)·ln C[0] − Σ_{b<n} ln C[2^b] + ln C[2^n-1]], and the
    all-subtuples estimator returns [sigma = sqrt(Σ_{b<2^n} 1/C[b])] and
    [lambda = Σ_{b<2^n} (−1)^(n − popcount b)·ln C[b]].  (The size of the
    vector is a [size_t].) *)
Theorem estimators_formulas (C : list R) (n : nat) :
  1 ≤ n →
  (Z.of_nat (length C) < 2 ^ 64)%Z →
  length C = 2 ^ n →
  (∀ c, c ∈ C → (0 < c)%R) →
  sigma_uni C n = Some (sigma_uni_spec C n)
  ∧ lambda_uni C n = Some (lambda_uni_spec C n)
  ∧ sigma_all C = Some (sigma_all_spec C n)
  ∧ lambda_all C n = Some (lambda_all_spec C n).
Proof.
  intros Hn Hsize Hlen Hpos.
  auto 6 using sigma_uni_ok, lambda_uni_ok, sigma_all_ok, lambda_all_ok.
Qed.

Lemma estimators_formulas_witness :
  sigma_uni [1; 2; 3; 4]%R 2 = Some (sigma_uni_spec [1; 2; 3; 4]%R 2)
  ∧ lambda_uni [1; 2; 3; 4]%R 2 = Some (lambda_uni_spec [1; 2; 3; 4]%R 2)
  ∧ sigma_all [1; 2; 3; 4]%R = Some (sigma_all_spec [1; 2; 3; 4]%R 2)
  ∧ lambda_all [1; 2; 3; 4]%R 2 = Some (lambda_all_spec [1; 2; 3; 4]%R 2).
Proof.
  apply estimators_formulas.
  - lia.
  - simpl. lia.
  - reflexivity.
  - intros c Hc. repeat (apply elem_of_cons in Hc as [->|Hc]; [lra|]).
    by apply elem_of_nil in Hc.
Defined.

(** ** Candidate estimator *)

Lemma vec_add_Some v k x v' :
  vec_add v k x = Some v' → k < length v ∧ v' = alter (λ c, c + x)%R k v.
Proof. unfold vec_add. case_decide; [|done]. by intros [= <-]. Qed.

Lemma match_bit2_Some a b bit :
  match_bit2 a b = Some bit → bit = bitmask a b ∧ (0 ≤ bit)%Z.
Proof.
  rewrite match_bit2_eq. case_decide; [|done]. intros [= <-].
  split; [done | apply bitmask_bound].
Qed.

(** The loop over [j], after [m] iterations: every bucket has received the
    counts of the candidates compared so far that fall into it. *)
Lemma contingency_loop i (seqs : list (list N)) (cs : list Z) (v0 : list R) m v :
  for_each (counts_bit_body i seqs cs) v0 (seq 0 m) = Some v →
  length v = length v0
  ∧ ∀ b, v !! b = (λ c, c + IZR (bucket_weight i seqs cs b m))%R <$> v0 !! b.
Proof.
  revert v. induction m as [|m IH]; intros v.
  - intros [= <-]. split; [done|]. intros b. simpl.
    destruct (v0 !! b); simpl; [f_equal; lra | done].
  - rewrite seq_S, for_each_snoc. simpl.
    destruct (for_each _ v0 (seq 0 m)) as [v1|]; [|done]. simpl.
    destruct (IH v1 eq_refl) as [Hlen Hv1]. clear IH.
    unfold counts_bit_body. destruct (decide (i = m)) as [->|Hne].
    + intros [= <-]. split; [done|]. intros b. rewrite Hv1.
      rewrite decide_False by tauto. by rewrite Z.add_0_r.
    + destruct (seqs !! i) as [si|] eqn:Hsi; [|done].
      destruct (seqs !! m) as [sj|] eqn:Hsj; [|done]. simpl.
      destruct (match_bit2 si sj) as [bit|] eqn:Hbit; [|done]. simpl.
      destruct (cs !! m) as [c|] eqn:Hc; [|done]. simpl.
      apply match_bit2_Some in Hbit as [Hbit Hbit0].
      intros [Hk ->]%vec_add_Some. split; [by rewrite length_alter|].
      intros b. destruct (decide (b = Z.to_nat bit)) as [->|Hb].
      * rewrite list_lookup_alter_eq, Hv1.
        rewrite decide_True by (split; [done | lia]).
        destruct (v0 !! Z.to_nat bit); simpl; [|done].
        rewrite plus_IZR. f_equal. lra.
      * rewrite list_lookup_alter_ne, Hv1 by done.
        rewrite decide_False by lia. by rewrite Z.add_0_r.
Qed.

(** The loop runs into no undefined behaviour when the candidate has at most
    31 tokens. *)
Lemma contingency_loop_defined i (seqs : list (list N)) (cs : list Z)
    (si : list N) (v0 : list R) m :
  seqs !! i = Some si → length si ≤ 31 → length cs = length seqs →
  length v0 = 2 ^ length si → m ≤ length seqs →
  is_Some (for_each (counts_bit_body i seqs cs) v0 (seq 0 m)).
Proof.
  intros Hsi Hshort Hcs Hv0. induction m as [|m IH]; intros Hm; [by eexists|].
  rewrite seq_S, for_each_snoc. simpl.
  destruct IH as [v1 Hv1]; [lia|]. rewrite Hv1. simpl.
  apply contingency_loop in Hv1 as [Hlen _].
  unfold counts_bit_body. case_decide; [by eexists|].
  rewrite Hsi. simpl.
  destruct (lookup_lt_is_Some_2 seqs m) as [sj ->]; [lia|]. simpl.
  rewrite match_bit2_short by lia. simpl.
  destruct (lookup_lt_is_Some_2 cs m) as [c ->]; [lia|]. simpl.
  unfold vec_add. rewrite decide_True; [by eexists|].
  pose proof (bitmask_bound si sj) as [H0 Hlt].
  assert (2 ^ Z.of_nat (length si `min` length sj) ≤ 2 ^ Z.of_nat (length si))%Z
    by (apply Z.pow_le_mono_r; lia).
  rewrite Hlen, Hv0.
  apply Nat2Z.inj_lt. rewrite Nat2Z.inj_pow, Z2Nat.id by done.
  change (Z.of_nat 2) with 2%Z. lia.
Qed.

Lemma contingency_Some i (seqs : list (list N)) (cs : list Z) (si : list N) v :
  seqs !! i = Some si → contingency i seqs cs = Some v →
  length v = 2 ^ length si
  ∧ ∀ b, b < 2 ^ length si → v !! b = Some (contingency_spec i seqs cs b).
Proof.
  intros Hsi. unfold contingency. rewrite Hsi. simpl.
  destruct (for_each _ _ _) as [v1|] eqn:Hv1; [|done]. simpl.
  destruct (cs !! i) as [ci|] eqn:Hci; [|done]. simpl.
  apply contingency_loop in Hv1 as [Hlen Hv1]. rewrite length_replicate in Hlen.
  intros [Hk ->]%vec_add_Some. split; [by rewrite length_alter|].
  intros b Hb. unfold contingency_spec. rewrite Hsi, Hci. simpl.
  destruct (decide (b = 2 ^ length si - 1)) as [->|Hne].
  - rewrite list_lookup_alter_eq, Hv1, lookup_replicate_2 by done. simpl.
    f_equal.
  - rewrite list_lookup_alter_ne, Hv1, lookup_replicate_2 by done. simpl.
    f_equal. lra.
Qed.

Lemma contingency_defined i (seqs : list (list N)) (cs : list Z) (si : list N) :
  seqs !! i = Some si → length si ≤ 31 → length cs = length seqs →
  is_Some (contingency i seqs cs).
Proof.
  intros Hsi Hshort Hcs. unfold contingency. rewrite Hsi. simpl.
  destruct (contingency_loop_defined i seqs cs si
              (replicate (2 ^ length si) 0.5%R) (length seqs))
    as [v1 Hv1]; try done; [by rewrite length_replicate|].
  rewrite Hv1. simpl.
  apply contingency_loop in Hv1 as [Hlen _]. rewrite length_replicate in Hlen.
  destruct (lookup_lt_is_Some_2 cs i) as [ci ->].
  { rewrite Hcs. by eapply lookup_lt_Some. }
  simpl. unfold vec_add. rewrite decide_True; [by eexists|].
  pose proof (Nat.pow_nonzero 2 (length si)). lia.
Qed.

Lemma for_each_fails {A S : Type} (body : S → A → option S) (l1 : list A)
    (x : A) (l2 : list A) (s : S) :
  (∀ s', body s' x = None) → for_each body s (l1 ++ x :: l2) = None.
Proof.
  intros Hx. revert s. induction l1 as [|y l1 IH]; intros s; simpl.
  - by rewrite Hx.
  - destruct (body s y); simpl; [apply IH | done].
Qed.

(** One neighbour whose comparison leaves the range of [int] is enough for
    the vector of candidate [i] not to be built. *)
Lemma contingency_undefined i j (seqs : list (list N)) (cs : list Z)
    (si sj : list N) :
  seqs !! i = Some si → seqs !! j = Some sj → i ≠ j →
  match_bit2 si sj = None → contingency i seqs cs = None.
Proof.
  intros Hsi Hsj Hne Hbit. unfold contingency. rewrite Hsi. simpl.
  generalize (replicate (2 ^ length si) 0.5%R). intros v0.
  assert (j < length seqs) as Hj by (by eapply lookup_lt_Some).
  replace (length seqs) with (j + S (length seqs - S j)) by lia.
  rewrite seq_app. cbn [seq Nat.add].
  rewrite for_each_fails; [done|].
  intros v. unfold counts_bit_body. rewrite decide_False by done.
  rewrite Hsi, Hsj. simpl. by rewrite Hbit.
Qed.

Lemma estimates_undefined i (seqs : list (list N)) (cs : list Z)
    (ss ls : list (option R)) (method : string) (count_min : Z)
    (si : list N) (ci : Z) :
  seqs !! i = Some si → cs !! i = Some ci →
  length si ≠ 1 → (count_min ≤ ci)%Z →
  contingency i seqs cs = None →
  estimates i seqs cs ss ls method count_min = None.
Proof.
  intros Hsi Hci Hn Hmin Hv. unfold estimates. rewrite Hsi, Hci. simpl.
  rewrite decide_False by done. rewrite decide_False by lia.
  by rewrite Hv.
Qed.

(** C3, as stated, at a candidate of 32 tokens that passes both filters: a
    neighbour holds the same token at position 31, the bitmask [2^31] of the
    two is not an [int] (line 12), and no contingency vector is built. *)
Lemma contingency_overflow :
  let si := replicate 32 1%N in
  let sj := replicate 31 2%N ++ [1%N] in
  2 ≤ length si ∧ (1 ≤ 1)%Z
  ∧ contingency 0 [si; sj] [1; 1]%Z = None
  ∧ estimates 0 [si; sj] [1; 1]%Z [None; None] [None; None] "unigram" 1 = None.
Proof.
  intros si sj.
  assert (match_bit2 si sj = None) as Hbit by (vm_compute; reflexivity).
  assert (contingency 0 [si; sj] [1; 1]%Z = None) as Hv
    by (by apply (contingency_undefined 0 1 [si; sj] [1; 1]%Z si sj)).
  assert (length si = 32) as Hlen by apply length_replicate.
  split; [lia|]. split; [lia|]. split; [done|].
  apply (estimates_undefined 0 [si; sj] [1; 1]%Z _ _ _ _ si 1%Z);
    [done | done | lia | lia | done].
Qed.

(** C3 (amended): for a candidate [i] of at most 31 tokens (the longest for
    which every match bitmask is an [int]) that passes the filters (length
    at least 2, count at least [count_min]), [estimates] builds a contingency
    vector of size [2^n] that holds at each index [b] the prior [0.5] plus
    the counts [cs[j]] of all other candidates [j ≠ i] (whatever their length
    or count) whose match bitmask against [i] is [b], the all-ones index
    receiving [cs[i] - 1] on top; this is the vector handed to the estimator
    of the chosen method. *)
Theorem estimates_contingency (i : nat) (seqs : list (list N)) (cs : list Z)
    (ss ls : list (option R)) (method : string) (count_min : Z)
    (si : list N) (ci : Z) :
  seqs !! i = Some si → cs !! i = Some ci → length cs = length seqs →
  2 ≤ length si → length si ≤ 31 → (count_min ≤ ci)%Z →
  let n := length si in
  ∃ v, contingency i seqs cs = Some v
       ∧ length v = 2 ^ n
       ∧ (∀ b, b < 2 ^ n → v !! b = Some (contingency_spec i seqs cs b))
       ∧ (i < length ss → i < length ls →
          estimates i seqs cs ss ls method count_min =
          Some (if decide (method = "unigram")
                then (<[i := sigma_uni v n]> ss, <[i := lambda_uni v n]> ls)
                else (<[i := sigma_all v]> ss, <[i := lambda_all v n]> ls))).
Proof.
  intros Hsi Hci Hcs Hn Hshort Hmin n.
  destruct (contingency_defined i seqs cs si) as [v Hv]; try done.
  exists v. destruct (contingency_Some i seqs cs si v Hsi Hv) as [Hlen Hspec].
  repeat split; [done | done | done |].
  intros Hss Hls. unfold estimates. rewrite Hsi, Hci. simpl.
  rewrite decide_False by (unfold n in *; lia).
  rewrite decide_False by lia. rewrite Hv. simpl.
  unfold vec_set.
  destruct (decide (method = "unigram")); by rewrite !decide_True by done.
Qed.

Lemma estimates_contingency_witness :
  ∃ v, contingency 0 [[1; 2]; [2; 3]; [1; 3]; [4]]%N [2; 1; 5; 7]%Z = Some v
       ∧ length v = 4
       ∧ v !! 1 = Some (contingency_spec 0 [[1; 2]; [2; 3]; [1; 3]; [4]]%N
                          [2; 1; 5; 7]%Z 1)
       ∧ estimates 0 [[1; 2]; [2; 3]; [1; 3]; [4]]%N [2; 1; 5; 7]%Z
           [None; None; None; None] [None; None; None; None] "unigram" 1
         = Some (<[0 := sigma_uni v 2]> [None; None; None; None],
                 <[0 := lambda_uni v 2]> [None; None; None; None]).
Proof.
  destruct (estimates_contingency 0 [[1; 2]; [2; 3]; [1; 3]; [4]]%N
              [2; 1; 5; 7]%Z [None; None; None; None] [None; None; None; None]
              "unigram" 1 [1; 2]%N 2%Z) as (v & Hv & Hlen & Hspec & Hest).
  - reflexivity.
  - reflexivity.
  - reflexivity.
  - simpl. lia.
  - simpl. lia.
  - lia.
  - exists v. split; [done|]. split; [done|]. split; [apply Hspec; simpl; lia|].
    apply Hest; simpl; lia.
Defined.

Lemma bucket_weight_nonneg i (seqs : list (list N)) (cs : list Z) b m :
  (∀ c, c ∈ cs → (0 ≤ c)%Z) → (0 ≤ bucket_weight i seqs cs b m)%Z.
Proof.
  intros Hcs. induction m as [|m IH]; simpl; [done|].
  case_decide; [|lia].
  destruct (cs !! m) as [c|] eqn:Hc; simpl; [|lia].
  apply list_elem_of_lookup_2, Hcs in Hc. lia.
Qed.

(** C6: with nonnegative counts and [cs[i] ≥ 1], every entry of the
    contingency vector that [estimates] hands to an estimator is strictly
    positive, and on that vector both variants return a finite value for
    sigma and for lambda. *)
Theorem estimates_finite (i : nat) (seqs : list (list N)) (cs : list Z)
    (si : list N) (ci : Z) (v : list R) :
  seqs !! i = Some si → cs !! i = Some ci →
  (∀ c, c ∈ cs → (0 ≤ c)%Z) → (1 ≤ ci)%Z →
  contingency i seqs cs = Some v →
  let n := length si in
  (∀ c, c ∈ v → (0 < c)%R)
  ∧ is_Some (sigma_uni v n) ∧ is_Some (lambda_uni v n)
  ∧ is_Some (sigma_all v) ∧ is_Some (lambda_all v n).
Proof.
  intros Hsi Hci Hcs Hci1 Hv n.
  destruct (contingency_Some i seqs cs si v Hsi Hv) as [Hlen Hspec].
  assert (∀ c, c ∈ v → (0 < c)%R) as Hpos.
  { intros c [b Hb]%list_elem_of_lookup_1.
    rewrite Hspec in Hb by (rewrite <- Hlen; by eapply lookup_lt_Some).
    injection Hb as <-. unfold contingency_spec. rewrite Hci. simpl.
    pose proof (IZR_le _ _ (bucket_weight_nonneg i seqs cs b (length seqs) Hcs)).
    case_decide; [|lra].
    assert (0 <= IZR (ci - 1))%R by (apply IZR_le; lia). lra. }
  split; [done|].
  rewrite (sigma_uni_value v n), (lambda_uni_value v n),
    (sigma_all_value v n), (lambda_all_value v n) by done.
  by repeat split.
Qed.

Lemma estimates_finite_witness :
  (∀ c, c ∈ [0.5; 0.5; 0.5; 0.5]%R → (0 < c)%R)
  ∧ is_Some (sigma_uni [0.5; 0.5; 0.5; 0.5]%R 2)
  ∧ is_Some (lambda_uni [0.5; 0.5; 0.5; 0.5]%R 2)
  ∧ is_Some (sigma_all [0.5; 0.5; 0.5; 0.5]%R)
  ∧ is_Some (lambda_all [0.5; 0.5; 0.5; 0.5]%R 2).
Proof.
  apply (estimates_finite 0 [[1; 2]]%N [1%Z] [1; 2]%N 1%Z).
  - reflexivity.
  - reflexivity.
  - intros c ->%list_elem_of_singleton. lia.
  - lia.
  - unfold contingency, vec_add, for_each, counts_bit_body. simpl.
    change (1 - 1)%Z with 0%Z. by rewrite Rplus_0_r.
Defined.

(** ** Pipeline driver *)

Lemma count_run_short (text : list N) (len_min len_max : nat)
    (counts_seq : gmap (list N) Z) i :
  len_max < len_min → count_run text len_min len_max counts_seq i = counts_seq.
Proof.
  intros H. unfold count_run. case_decide as Hlen; [|done].
  pose proof (run_length (drop i text) len_max). lia.
Qed.

Lemma counts_short (text : list N) (counts_seq : gmap (list N) Z)
    (len_min len_max : nat) nested :
  len_max < len_min → counts text counts_seq len_min len_max nested = counts_seq.
Proof.
  intros H. unfold counts. case_decide; [done|].
  destruct (counts_outer_starts (text ++ [0%N]) len_min len_max nested
              (length (text ++ [0%N])) 0 counts_seq) as [starts ->];
    [auto using padded_boundary|].
  simpl. induction starts as [|k starts IH]; simpl; [done|].
  by rewrite count_run_short.
Qed.

Lemma count_texts_short texts len_min len_max nested :
  len_max < len_min → count_texts texts len_min len_max nested = ∅.
Proof.
  intros H. unfold count_texts. generalize (∅ : gmap (list N) Z).
  induction texts as [|text texts IH]; intros tbl; simpl; [done|].
  by rewrite counts_short.
Qed.

Lemma qatd_cpp_sequences_not_raised join texts types_ count_min len_min len_max
    method nested e :
  qatd_cpp_sequences join texts types_ count_min len_min len_max method nested
  ≠ Raised e.
Proof.
  unfold qatd_cpp_sequences.
  by destruct (for_each _ _ _) as [[ss ls]|].
Qed.

(** C7, as stated, at [len_min = 0], [len_max = 0]: the run counts the empty
    n-gram twice and returns a data frame with one row. *)
Lemma invalid_range_not_rejected :
  invalid_range 0 0
  ∧ count_texts [[1%N]] 0 0 false = {[ [] := 2%Z ]}
  ∧ qatd_cpp_sequences join_none [[1%N]] [] 1%Z 0 0 "unigram" false
    ≠ Raised InvalidRange.
Proof.
  split; [right; by left|]. split; [vm_compute; reflexivity|].
  apply qatd_cpp_sequences_not_raised.
Qed.

(** [estimates i] writes to slot [i] only, and only when [i] passes the
    filters. *)
Lemma estimates_frame i (seqs : list (list N)) (cs : list Z)
    (ss ls ss' ls' : list (option R)) method count_min k :
  estimates i seqs cs ss ls method count_min = Some (ss', ls') →
  k ≠ i ∨ skipped seqs cs count_min i →
  ss' !! k = ss !! k ∧ ls' !! k = ls !! k.
Proof.
  unfold estimates. intros Hest Hk.
  destruct (seqs !! i) as [si|] eqn:Hsi; [|done]. simpl in Hest.
  case_decide as Hn; [by injection Hest as <- <-|].
  destruct (cs !! i) as [ci|] eqn:Hci; [|done]. simpl in Hest.
  case_decide as Hc; [by injection Hest as <- <-|].
  destruct Hk as [Hk|(s & c & Hs & Hc' & Hskip)].
  - destruct (contingency i seqs cs) as [v|]; [|done]. simpl in Hest.
    unfold vec_set in Hest.
    destruct (decide (method = "unigram"));
      (destruct (decide (i < length ss)); simpl in Hest; [|done]);
      (destruct (decide (i < length ls)); simpl in Hest; [|done]);
      injection Hest as <- <-; by rewrite !list_lookup_insert_ne.
  - exfalso. rewrite Hsi in Hs. rewrite Hci in Hc'.
    injection Hs as <-. injection Hc' as <-. destruct Hskip; lia.
Qed.

Lemma estimates_loop_frame (seqs : list (list N)) (cs : list Z) method count_min
    (ss ls ss' ls' : list (option R)) m k :
  for_each (λ '(ss, ls) i, estimates i seqs cs ss ls method count_min)
    (ss, ls) (seq 0 m) = Some (ss', ls') →
  skipped seqs cs count_min k →
  ss' !! k = ss !! k ∧ ls' !! k = ls !! k.
Proof.
  revert ss' ls'. induction m as [|m IH]; intros ss' ls'.
  - by intros [= <- <-].
  - rewrite seq_S, for_each_snoc. simpl.
    destruct (for_each _ _ (seq 0 m)) as [[ss1 ls1]|]; [|done]. simpl.
    intros Hest Hk. destruct (IH ss1 ls1 eq_refl Hk) as [<- <-].
    eapply estimates_frame; [done|].
    destruct (decide (k = m)) as [->|]; [by right | by left].
Qed.

(** For thresholds that are representable as an [int], every record that the
    filters skip keeps the absent scores its slots were created with, and
    its sequence, count and length are emitted. *)
Lemma skipped_records_absent join (texts : list (list N)) (types_ : list string)
    (count_min : Z) (len_min len_max : nat) (method : string) (nested : bool)
    (df : DataFrame) (i : nat) (s : list N) (c : Z) :
  (count_min ≤ INT_MAX)%Z →
  qatd_cpp_sequences join texts types_ count_min len_min len_max method nested
    = Returned df →
  tokens df !! i = Some s → count df !! i = Some c →
  length s = 1 ∨ (c < count_min)%Z →
  lambda df !! i = Some None ∧ sigma df !! i = Some None
  ∧ collocation df !! i = Some (join s types_ " ")
  ∧ length_ df !! i = Some (Z.of_nat (length s)).
Proof.
  intros Hcm. unfold qatd_cpp_sequences.
  set (flat := map_to_list _).
  destruct (for_each _ _ _) as [[ss ls]|] eqn:Hloop; [|done].
  intros [= <-]. simpl. intros Hs Hc Hskip.
  unfold uint_to_int in Hloop. rewrite decide_True in Hloop by done.
  destruct (estimates_loop_frame _ _ _ _ _ _ _ _ _ i Hloop) as [-> ->].
  { by exists s, c. }
  assert (i < size (count_texts texts len_min len_max nested)) as Hi.
  { rewrite <- length_map_to_list. fold flat.
    apply lookup_lt_Some in Hs. by rewrite length_fmap in Hs. }
  unfold DoubleParams_new. rewrite lookup_replicate_2 by done.
  rewrite (list_lookup_fmap _ flat.*1), (list_lookup_fmap _ flat.*1), Hs.
  done.
Qed.

(** C8 at a failing input: the threshold [4294967295] reaches [estimates] as
    the [int] [-1], so the record [[1, 2]] of count [1], which lies below the
    threshold, is scored all the same: its lambda and sigma are numbers. *)
Theorem count_min_sign_slip :
  qatd_cpp_sequences join_none [[1; 2]]%N [] 4294967295%Z 2 2 "unigram" false
  = Returned
      {| collocation := [EmptyString];
         count := [1%Z];
         length_ := [2%Z];
         lambda := [Some (lambda_uni_spec [0.5; 0.5; 0.5; 0.5]%R 2)];
         sigma := [Some (sigma_uni_spec [0.5; 0.5; 0.5; 0.5]%R 2)];
         tokens := [[1; 2]%N] |}.
Proof.
  unfold qatd_cpp_sequences.
  assert (count_texts [[1; 2]%N] 2 2 false = {[ [1; 2]%N := 1%Z ]}) as ->
    by (vm_compute; reflexivity).
  rewrite map_to_list_singleton, map_size_singleton.
  change (uint_to_int 4294967295) with (-1)%Z.
  simpl. unfold estimates. simpl.
  change (1 - 1)%Z with 0%Z. rewrite Rplus_0_r.
  assert (∀ c, c ∈ [0.5; 0.5; 0.5; 0.5]%R → (0 < c)%R) as Hpos.
  { intros c Hc. repeat (apply elem_of_cons in Hc as [->|Hc]; [lra|]).
    by apply elem_of_nil in Hc. }
  rewrite (sigma_uni_ok _ 2), (lambda_uni_ok _ 2) by (done || simpl; lia).
  reflexivity.
Qed.

(** * Further properties of the code *)

(** ** The scan as a list of starts *)

Lemma counts_scan (text : list N) (counts_seq : gmap (list N) Z)
    (len_min len_max : nat) (nested : bool) :
  counts text counts_seq len_min len_max nested =
  foldl (count_run (text ++ [0%N]) len_min len_max) counts_seq
    (scan_starts text len_max nested).
Proof.
  unfold counts, scan_starts.
  case_decide as Hlen; [done|].
  destruct nested.
  - rewrite counts_outer_nested by (auto using padded_boundary || lia).
    by rewrite Nat.sub_0_r.
  - by rewrite counts_outer_unnested by auto using padded_boundary.
Qed.

Lemma increment_lookup_eq (w : list N) (counts_seq : gmap (list N) Z) :
  increment w counts_seq !! w = Some (default 0 (counts_seq !! w) + 1)%Z.
Proof. unfold increment. by rewrite lookup_insert_eq. Qed.

(** The effect of a list of starts on the count of one key. *)
Lemma foldl_count_run_lookup (text : list N) (len_min len_max : nat)
    (starts : list nat) (counts_seq : gmap (list N) Z) (key : list N) :
  foldl (count_run text len_min len_max) counts_seq starts !! key =
  let h := hits text len_min len_max key starts in
  match counts_seq !! key with
  | Some c => Some (c + Z.of_nat h)%Z
  | None => if decide (h = 0) then None else Some (Z.of_nat h)
  end.
Proof.
  revert counts_seq. unfold hits.
  induction starts as [|i starts IH]; intros tbl.
  - simpl. destruct (tbl !! key); [f_equal; lia | done].
  - cbn [foldl]. rewrite IH. clear IH. rewrite filter_cons.
    unfold count_run.
    destruct (decide (run (drop i text) len_max = key ∧ len_min ≤ length key))
      as [[Hrun Hlen]|Hno].
    + rewrite decide_True by (by rewrite Hrun). rewrite Hrun.
      rewrite increment_lookup_eq. cbn [length].
      destruct (tbl !! key) as [c|]; simpl.
      * f_equal. lia.
      * f_equal. lia.
    + case_decide as Hmin; [|done].
      rewrite increment_lookup_ne; [done|].
      intros ->. apply Hno. split; [done | lia].
Qed.

(** What one call of [counts] does to the entry of one key. *)
Lemma counts_lookup (text : list N) (counts_seq : gmap (list N) Z)
    (len_min len_max : nat) (nested : bool) (key : list N) :
  counts text counts_seq len_min len_max nested !! key =
  let h := hits (text ++ [0%N]) len_min len_max key
             (scan_starts text len_max nested) in
  match counts_seq !! key with
  | Some c => Some (c + Z.of_nat h)%Z
  | None => if decide (h = 0) then None else Some (Z.of_nat h)
  end.
Proof. rewrite counts_scan. apply foldl_count_run_lookup. Qed.

Lemma hits_pos_run (text : list N) (len_min len_max : nat) (key : list N)
    (starts : list nat) :
  hits text len_min len_max key starts ≠ 0 →
  ∃ i, i ∈ starts ∧ run (drop i text) len_max = key ∧ len_min ≤ length key.
Proof.
  unfold hits. intros Hne.
  destruct (filter _ starts) as [|i l] eqn:Hf; [done|].
  assert (i ∈ filter (λ i, run (drop i text) len_max = key
                           ∧ len_min ≤ length key) starts) as Hi
    by (rewrite Hf; left).
  apply list_elem_of_filter in Hi as [[? ?] ?]. by exists i.
Qed.

(** X1: the counter never removes a key and never lowers a count. *)
Theorem counts_monotone (text : list N) (counts_seq : gmap (list N) Z)
    (len_min len_max : nat) (nested : bool) (key : list N) (c : Z) :
  counts_seq !! key = Some c →
  ∃ c', counts text counts_seq len_min len_max nested !! key = Some c'
        ∧ (c ≤ c')%Z.
Proof.
  intros Hc. rewrite counts_lookup, Hc. simpl.
  eexists. split; [done | lia].
Qed.

Lemma counts_monotone_witness :
  ∃ c', counts [1; 2]%N {[ [1; 2]%N := 5%Z ]} 2 2 true !! [1; 2]%N = Some c'
        ∧ (5 ≤ c')%Z.
Proof.
  apply (counts_monotone [1; 2]%N {[ [1; 2]%N := 5%Z ]} 2 2 true [1; 2]%N 5%Z).
  reflexivity.
Defined.

(** X2: every key that the counter adds to the table, or whose count it
    raises, has between [len_min] and [len_max] tokens. *)
Theorem counts_key_length (text : list N) (counts_seq : gmap (list N) Z)
    (len_min len_max : nat) (nested : bool) (key : list N) :
  counts text counts_seq len_min len_max nested !! key ≠ counts_seq !! key →
  len_min ≤ length key ≤ len_max.
Proof.
  rewrite counts_lookup. simpl. intros Hne.
  destruct (hits_pos_run (text ++ [0%N]) len_min len_max key
              (scan_starts text len_max nested)) as (i & _ & <- & Hmin).
  { intros Hz. rewrite Hz in Hne. apply Hne.
    destruct (counts_seq !! key); simpl; [f_equal; lia | done]. }
  split; [done | apply run_length].
Qed.

Lemma counts_key_length_witness : 2 ≤ length [2; 3]%N ≤ 3.
Proof.
  apply (counts_key_length [1; 2; 3]%N ∅ 2 3 true [2; 3]%N).
  intros H. vm_compute in H. discriminate.
Defined.

(** Two calls of [counts] commute. *)
Lemma counts_comm (t1 t2 : list N) (counts_seq : gmap (list N) Z)
    (len_min len_max : nat) (nested : bool) :
  counts t1 (counts t2 counts_seq len_min len_max nested) len_min len_max nested
  = counts t2 (counts t1 counts_seq len_min len_max nested) len_min len_max nested.
Proof.
  apply map_eq. intros key. rewrite !counts_lookup. simpl.
  set (h1 := hits (t1 ++ _) _ _ _ _). set (h2 := hits (t2 ++ _) _ _ _ _).
  destruct (counts_seq !! key) as [c|]; simpl.
  - f_equal. lia.
  - destruct (decide (h1 = 0)) as [->|], (decide (h2 = 0)) as [->|]; simpl;
      try rewrite decide_True by done; try rewrite decide_False by done;
      try done; f_equal; lia.
Qed.

Lemma foldl_counts_perm (texts texts' : list (list N))
    (counts_seq : gmap (list N) Z) (len_min len_max : nat) (nested : bool) :
  texts ≡ₚ texts' →
  foldl (λ m t, counts t m len_min len_max nested) counts_seq texts =
  foldl (λ m t, counts t m len_min len_max nested) counts_seq texts'.
Proof.
  intros Hp. revert counts_seq.
  induction Hp as [|t l l' _ IH|t1 t2 l|l1 l2 l3 _ IH1 _ IH2]; intros tbl; simpl.
  - done.
  - apply IH.
  - by rewrite counts_comm.
  - by rewrite IH1.
Qed.

(** X3: the frequency table of a corpus does not depend on the order in
    which its texts are counted. *)
Theorem count_texts_order (texts texts' : list (list N))
    (len_min len_max : nat) (nested : bool) :
  texts ≡ₚ texts' →
  count_texts texts len_min len_max nested
  = count_texts texts' len_min len_max nested.
Proof. apply foldl_counts_perm. Qed.

Lemma count_texts_order_witness :
  count_texts [[1; 2; 3]; [4; 0; 5]]%N 1 2 true
  = count_texts [[4; 0; 5]; [1; 2; 3]]%N 1 2 true.
Proof. apply count_texts_order. apply perm_swap. Defined.

Lemma counts_lookup_default (text : list N) (counts_seq : gmap (list N) Z)
    (len_min len_max : nat) (nested : bool) (key : list N) :
  default 0%Z (counts text counts_seq len_min len_max nested !! key) =
  (default 0 (counts_seq !! key)
   + Z.of_nat (hits (text ++ [0%N]) len_min len_max key
                 (scan_starts text len_max nested)))%Z.
Proof.
  rewrite counts_lookup. simpl.
  destruct (counts_seq !! key); simpl; [done|].
  case_decide as Hh; simpl; [rewrite Hh|]; lia.
Qed.

(** The table built from scratch keeps an invariant on its entries. *)
Lemma foldl_counts_entries (texts : list (list N)) (counts_seq : gmap (list N) Z)
    (len_min len_max : nat) (nested : bool) (Q : list N → Z → Prop) :
  (∀ key c h, Q key c → Q key (c + Z.of_nat h)%Z) →
  (∀ key h, h ≠ 0 → len_min ≤ length key ≤ len_max → 0%N ∉ key →
            Q key (Z.of_nat h)) →
  (∀ key c, counts_seq !! key = Some c → Q key c) →
  ∀ key c,
    foldl (λ m t, counts t m len_min len_max nested) counts_seq texts !! key
      = Some c → Q key c.
Proof.
  intros Hadd Hnew. revert counts_seq.
  induction texts as [|text texts IH]; intros tbl Htbl; [done|].
  simpl. apply IH. intros key c. rewrite counts_lookup. simpl.
  destruct (tbl !! key) as [c0|] eqn:Hc0.
  - intros [= <-]. by apply Hadd, Htbl.
  - case_decide as Hh; [done|]. intros [= <-].
    destruct (hits_pos_run _ _ _ _ _ Hh) as (i & _ & Hrun & Hmin).
    apply Hnew; [done | | rewrite <- Hrun; apply run_no_boundary].
    split; [done | rewrite <- Hrun; apply run_length].
Qed.

(** X4: in the frequency table of a corpus every count is at least 1, and
    every key has between [len_min] and [len_max] tokens, none of them the
    boundary token. *)
Theorem count_texts_entries (texts : list (list N)) (len_min len_max : nat)
    (nested : bool) (key : list N) (c : Z) :
  count_texts texts len_min len_max nested !! key = Some c →
  (1 ≤ c)%Z ∧ len_min ≤ length key ≤ len_max ∧ 0%N ∉ key.
Proof.
  unfold count_texts.
  apply (foldl_counts_entries texts ∅ len_min len_max nested
           (λ key c, (1 ≤ c)%Z ∧ len_min ≤ length key ≤ len_max ∧ 0%N ∉ key)).
  - intros k c0 h (? & ? & ?). repeat split; try done; lia.
  - intros k h Hh Hlen Hz. repeat split; try done; lia.
  - intros k c0 Hk. by rewrite lookup_empty in Hk.
Qed.

Lemma count_texts_entries_witness :
  (1 ≤ 2)%Z ∧ 2 ≤ length [1; 2]%N ≤ 2 ∧ 0%N ∉ [1; 2]%N.
Proof.
  apply (count_texts_entries [[1; 2; 3; 0]; [1; 2; 0]]%N 2 2 false [1; 2]%N 2%Z).
  vm_compute. reflexivity.
Defined.

(** Runs and windows. *)
Lemma run_eq_take (rest : list N) n (key : list N) :
  length key = n → 0%N ∉ key → run rest n = key ↔ take n rest = key.
Proof.
  revert n key. induction rest as [|t r IH]; intros n key Hlen Hz.
  - destruct n; simpl; done.
  - destruct n as [|m]; simpl; [done|].
    destruct key as [|k key']; [done|]. simpl in Hlen.
    destruct (N.eqb_spec t 0) as [->|Hne].
    + split; [done|]. intros [= <- _]. exfalso. apply Hz. left.
    + assert (0%N ∉ key') by (intros ?; apply Hz; by right).
      split; intros [= -> H']; f_equal; apply (IH m key'); auto; lia.
Qed.

Lemma take_padded (l key : list N) n :
  length key = n → 1 ≤ n → 0%N ∉ key →
  take n (l ++ [0%N]) = key ↔ take n l = key.
Proof.
  intros Hlen Hn Hz. destruct (decide (n ≤ length l)) as [Hle|Hgt].
  - by rewrite take_app_le.
  - rewrite take_ge by (rewrite length_app; simpl; lia).
    split.
    + intros <-. exfalso. apply Hz. apply elem_of_app. right. left.
    + intros Hk. exfalso. apply (f_equal length) in Hk.
      rewrite length_take in Hk. lia.
Qed.

Lemma filter_length_ext {A} (P Q : A → Prop) `{∀ x, Decision (P x)}
    `{∀ x, Decision (Q x)} (l : list A) :
  (∀ x, x ∈ l → P x ↔ Q x) → length (filter P l) = length (filter Q l).
Proof.
  induction l as [|x l IH]; intros HPQ; [done|].
  rewrite !filter_cons.
  assert (length (filter P l) = length (filter Q l)) as IH'
    by (apply IH; intros; apply HPQ; by right).
  destruct (decide (P x)) as [HP|HP], (decide (Q x)) as [HQ|HQ]; simpl;
    try (by rewrite IH'); exfalso;
    [apply HQ | apply HP]; apply (HPQ x); (left || done).
Qed.

Lemma hits_occurrences (text key : list N) n :
  length key = n → 1 ≤ n → 0%N ∉ key →
  hits (text ++ [0%N]) n n key (seq 0 (length (text ++ [0%N])))
  = occurrences key text.
Proof.
  intros Hlen Hn Hz. unfold hits, occurrences.
  rewrite length_app, Nat.add_1_r, seq_S, filter_app, length_app. simpl.
  rewrite filter_cons_False, filter_nil; last first.
  { intros [Hrun _]. rewrite drop_app_length in Hrun.
    destruct n; [lia|]. simpl in Hrun. subst key. simpl in Hlen. lia. }
  simpl. rewrite Nat.add_0_r. apply filter_length_ext.
  intros i Hi%elem_of_seq. rewrite Hlen.
  rewrite run_eq_take by done.
  rewrite drop_app_le by lia. rewrite take_padded by done.
  split; [by intros [? _] | intros ?; split; [done | lia]].
Qed.

(** X5: counting n-grams.  With [nested] set and [len_min = len_max = n],
    the count of an n-gram without boundary tokens rises by exactly the
    number of positions at which it occurs in the text. *)
Theorem counts_ngram_occurrences (text : list N) (counts_seq : gmap (list N) Z)
    (n : nat) (key : list N) :
  1 ≤ n → length key = n → 0%N ∉ key →
  default 0%Z (counts text counts_seq n n true !! key) =
  (default 0 (counts_seq !! key) + Z.of_nat (occurrences key text))%Z.
Proof.
  intros Hn Hlen Hz. rewrite counts_lookup_default. do 2 f_equal.
  unfold scan_starts. case_decide as Hempty.
  - destruct text; [|done]. by rewrite <- Hlen.
  - by apply hits_occurrences.
Qed.

Lemma counts_ngram_occurrences_witness :
  default 0%Z (counts [1; 2; 1; 2; 0; 1; 2]%N ∅ 2 2 true !! [1; 2]%N) =
  (default 0 ((∅ : gmap (list N) Z) !! [1; 2]%N)
   + Z.of_nat (occurrences [1; 2]%N [1; 2; 1; 2; 0; 1; 2]%N))%Z.
Proof.
  apply counts_ngram_occurrences.
  - lia.
  - reflexivity.
  - intros H. repeat (apply elem_of_cons in H as [H|H]; [done|]).
    by apply elem_of_nil in H.
Defined.

Lemma unnested_starts_sublist (text : list N) len_max fuel i :
  unnested_starts text len_max fuel i `sublist_of` seq i (length text - i).
Proof.
  revert i. induction fuel as [|fuel IH]; intros i; simpl;
    [apply sublist_nil_l|].
  case_decide as Hi; [|apply sublist_nil_l].
  replace (length text - i) with (S (length text - S i)) by lia.
  simpl. apply sublist_skip.
  set (k := length (run (drop i text) len_max)).
  etrans; [apply IH|].
  destruct (decide (i + k + 1 ≤ length text)) as [Hle|Hgt].
  - replace (length text - S i) with (k + (length text - (i + k + 1))) by lia.
    rewrite seq_app. replace (S i + k) with (i + k + 1) by lia.
    apply sublist_inserts_l. done.
  - replace (length text - (i + k + 1)) with 0 by lia. apply sublist_nil_l.
Qed.

Lemma filter_sublist_length {A} (P : A → Prop) `{∀ x, Decision (P x)}
    (l1 l2 : list A) :
  l1 `sublist_of` l2 → length (filter P l1) ≤ length (filter P l2).
Proof.
  induction 1 as [|x l1 l2 _ IH|x l1 l2 _ IH]; [done| |].
  - rewrite !filter_cons. destruct (decide (P x)); simpl; lia.
  - rewrite filter_cons. destruct (decide (P x)); simpl; lia.
Qed.

(** X6: whatever the text, no key ends with a lower count under
    [nested = true] than under [nested = false]. *)
Theorem counts_nested_dominates (text : list N) (counts_seq : gmap (list N) Z)
    (len_min len_max : nat) (key : list N) :
  (default 0 (counts text counts_seq len_min len_max false !! key)
   ≤ default 0 (counts text counts_seq len_min len_max true !! key))%Z.
Proof.
  rewrite !counts_lookup_default.
  apply Zplus_le_compat_l, inj_le.
  unfold hits, scan_starts. case_decide; [done|].
  apply filter_sublist_length.
  pose proof (unnested_starts_sublist (text ++ [0%N]) len_max
                (length (text ++ [0%N])) 0) as Hsub.
  by rewrite Nat.sub_0_r in Hsub.
Qed.

Lemma run_boundary_only (l : list N) i m :
  Forall (λ x, x = 0%N) l → run (drop i l) m = [].
Proof.
  intros Hl. assert (Forall (λ x, x = 0%N) (drop i l)) as Hd
    by (by apply Forall_drop).
  destruct Hd as [|x r -> _]; destruct m; done.
Qed.

Lemma counts_boundary_only_id (text : list N) (counts_seq : gmap (list N) Z)
    (len_min len_max : nat) (nested : bool) :
  1 ≤ len_min → Forall (λ x, x = 0%N) text →
  counts text counts_seq len_min len_max nested = counts_seq.
Proof.
  intros Hmin Hz. apply map_eq. intros key. rewrite counts_lookup. simpl.
  assert (hits (text ++ [0%N]) len_min len_max key
            (scan_starts text len_max nested) = 0) as ->.
  { destruct (decide (hits (text ++ [0%N]) len_min len_max key
                        (scan_starts text len_max nested) = 0)) as [|Hne];
      [done|].
    apply hits_pos_run in Hne as (i & _ & <- & Hlen).
    rewrite run_boundary_only in Hlen; [simpl in Hlen; lia|].
    apply Forall_app. split; [done|]. by repeat constructor. }
  destruct (counts_seq !! key); simpl; [f_equal; lia | done].
Qed.

(** X7: a text made of boundary tokens only (the empty text among them)
    leaves the table as it is, as long as [len_min ≥ 1]. *)
Theorem counts_boundary_only (text : list N) (counts_seq : gmap (list N) Z)
    (len_min len_max : nat) (nested : bool) :
  1 ≤ len_min → Forall (λ x, x = 0%N) text →
  counts text counts_seq len_min len_max nested = counts_seq.
Proof. apply counts_boundary_only_id. Qed.

Lemma counts_boundary_only_witness :
  counts [0; 0; 0]%N {[ [7]%N := 3%Z ]} 1 2 true = {[ [7]%N := 3%Z ]}.
Proof.
  apply counts_boundary_only; [lia|]. by repeat constructor.
Defined.

(** ** Bit comparator and bit count *)

(** X8: [bitCount] returns the number of set bits of its argument, so for an
    index [b < 2^n] it returns at most [n]: the exponent
    [ntokens - bitCount(b)] of [lambda_all] does not wrap around on a vector
    of size [2^ntokens]. *)
Theorem bitCount_set_bits (b : N) :
  bitCount b = popcount b
  ∧ ∀ n, (b < 2 ^ N.of_nat n)%N → bitCount b ≤ n.
Proof.
  split; [apply bitCount_popcount|].
  intros n Hb. rewrite bitCount_popcount.
  rewrite <- (N2Nat.id b). apply popcount_bound.
  apply Nat2Z.inj_lt. rewrite Nat2Z.inj_pow, N_nat_Z.
  change (Z.of_nat 2) with 2%Z.
  apply N2Z.inj_lt in Hb. rewrite N2Z.inj_pow, nat_N_Z in Hb. done.
Qed.

Lemma bitCount_set_bits_witness : bitCount 5 ≤ 3.
Proof. apply (proj2 (bitCount_set_bits 5) 3). reflexivity. Defined.

(** X9: a result of [match_bit2] is a valid index into a vector of size
    [2^m], with [m] the length of the shorter sequence. *)
Theorem match_bit2_range (a b : list N) (bit : Z) :
  match_bit2 a b = Some bit →
  (0 ≤ bit < 2 ^ Z.of_nat (length a `min` length b))%Z.
Proof. intros [-> _]%match_bit2_Some. apply bitmask_bound. Qed.

Lemma match_bit2_range_witness : (0 ≤ 5 < 2 ^ Z.of_nat (3 `min` 4))%Z.
Proof.
  apply (match_bit2_range [1; 2; 3]%N [1; 5; 3; 4]%N 5). reflexivity.
Defined.

Lemma bits_of_seq n : bits_of (seq 0 n) = (2 ^ Z.of_nat n - 1)%Z.
Proof.
  induction n as [|n IH]; [done|].
  rewrite seq_S, bits_of_snoc, IH. simpl.
  rewrite Nat2Z.inj_succ, Z.pow_succ_r by lia. lia.
Qed.

Lemma bits_of_filter_le (P : nat → Prop) `{∀ i, Decision (P i)} n :
  (bits_of (filter P (seq 0 n)) ≤ 2 ^ Z.of_nat n - 1)%Z.
Proof.
  assert (bits_of (filter P (seq 0 n)) < 2 ^ Z.of_nat n)%Z; [|lia].
  apply bits_of_lt; [apply NoDup_filter, NoDup_seq|].
  intros i [_ Hi%elem_of_seq]%list_elem_of_filter. lia.
Qed.

Lemma bits_of_filter_full (P : nat → Prop) `{∀ i, Decision (P i)} n :
  bits_of (filter P (seq 0 n)) = (2 ^ Z.of_nat n - 1)%Z → ∀ i, i < n → P i.
Proof.
  induction n as [|n IH]; intros Hfull i Hi; [lia|].
  rewrite seq_S, filter_app, filter_cons, filter_nil in Hfull. simpl in Hfull.
  pose proof (bits_of_filter_le P n) as Hle.
  assert (0 < 2 ^ Z.of_nat n)%Z as Hp by (apply Z.pow_pos_nonneg; lia).
  rewrite Nat2Z.inj_succ, Z.pow_succ_r in Hfull by lia.
  destruct (decide (P n)) as [HPn|HPn].
  - rewrite bits_of_snoc in Hfull.
    destruct (decide (i = n)) as [->|]; [done|].
    apply IH; lia.
  - rewrite app_nil_r in Hfull. lia.
Qed.

Lemma filter_all {A} (P : A → Prop) `{∀ x, Decision (P x)} (l : list A) :
  (∀ x, x ∈ l → P x) → filter P l = l.
Proof.
  induction l as [|x l IH]; intros HP; [done|].
  rewrite filter_cons, decide_True by (apply HP; left).
  f_equal. apply IH. intros y Hy. apply HP. by right.
Qed.

Lemma bitmask_full_prefix (a b : list N) :
  bitmask a b = (2 ^ Z.of_nat (length a) - 1)%Z ↔ a `prefix_of` b.
Proof.
  unfold bitmask, matching_positions. split.
  - intros Hfull.
    assert (length a ≤ length b) as Hlen.
    { pose proof (bits_of_filter_le (λ i, a !! i = b !! i)
                    (length a `min` length b)) as Hle.
      rewrite Hfull in Hle.
      destruct (decide (length a ≤ length b)); [done|].
      assert (2 ^ Z.of_nat (length a `min` length b)
              < 2 ^ Z.of_nat (length a))%Z
        by (apply Z.pow_lt_mono_r; lia).
      lia. }
    rewrite Nat.min_l in Hfull by done.
    pose proof (bits_of_filter_full _ _ Hfull) as Heq.
    exists (drop (length a) b). rewrite <- (take_drop (length a) b) at 1.
    f_equal. apply list_eq. intros i.
    destruct (decide (i < length a)) as [Hi|Hi].
    + rewrite lookup_take_lt by done. symmetry. by apply Heq.
    + rewrite lookup_take_ge, lookup_ge_None_2 by lia. done.
  - intros [k ->]. rewrite length_app, Nat.min_l by lia.
    rewrite filter_all; [apply bits_of_seq|].
    intros i Hi%elem_of_seq. by rewrite lookup_app_l by lia.
Qed.

(** X10: for a candidate [a] of at most 31 tokens, [match_bit2 a b] is the
    all-ones index [2^n - 1] exactly when [b] begins with [a]: the bucket
    that receives the self-match correction collects the candidates that
    extend [a], and no others. *)
Theorem match_bit2_all_ones (a b : list N) :
  length a ≤ 31 →
  match_bit2 a b = Some (2 ^ Z.of_nat (length a) - 1)%Z ↔ a `prefix_of` b.
Proof.
  intros Hshort. rewrite match_bit2_short by lia.
  rewrite <- bitmask_full_prefix. split; [by intros [= ->] | by intros ->].
Qed.

Lemma match_bit2_all_ones_witness :
  match_bit2 [1; 2]%N [1; 2; 3]%N = Some (2 ^ Z.of_nat (length [1; 2]%N) - 1)%Z
  ↔ [1; 2]%N `prefix_of` [1; 2; 3]%N.
Proof. apply match_bit2_all_ones. simpl. lia. Defined.

(** ** Estimators *)

Lemma big_sum_pos f n :
  1 ≤ n → (∀ b, b < n → (0 < f b)%R) → (0 < big_sum f n)%R.
Proof.
  intros Hn Hf. destruct n as [|n]; [lia|]. simpl.
  assert (0 <= big_sum f n)%R
    by (apply big_sum_nonneg; intros; apply Rlt_le, Hf; lia).
  specialize (Hf n ltac:(lia)). lra.
Qed.

Lemma inv_pos c : (0 < c)%R → (0 < 1 / c)%R.
Proof.
  intros H. unfold Rdiv. rewrite Rmult_1_l. by apply Rinv_0_lt_compat.
Qed.

(** X11: on a vector of size [2^n] whose entries are all at least the
    smoothing prior [0.5], so that no reciprocal exceeds 2, both variants
    return a strictly positive sigma, and the ratio [lambda / sigma] is
    defined. *)
Theorem sigma_positive (C : list R) (n : nat) :
  length C = 2 ^ n → (∀ c, c ∈ C → (0.5 <= c)%R) →
  ∃ s1 s2, sigma_uni C n = Some s1 ∧ sigma_all C = Some s2
           ∧ (0 < s1)%R ∧ (0 < s2)%R.
Proof.
  intros Hlen Hprior.
  assert (∀ c, c ∈ C → (0 < c)%R) as Hpos
    by (intros c Hc; apply Hprior in Hc; lra).
  rewrite (sigma_uni_value C n), (sigma_all_value C n) by done.
  do 2 eexists. repeat split.
  - apply sqrt_lt_R0.
    pose proof (read_entry C Hpos) as Hread.
    assert (0 < 1 / entry C (2 ^ n - 1))%R
      by (apply inv_pos, Hread, (last_index_lt C n Hlen)).
    assert (0 <= big_sum (λ b, 1 / entry C (2 ^ b)) n)%R.
    { apply big_sum_nonneg. intros b Hb. apply inv_pos_nonneg.
      by apply Hread, (unit_index_lt C n Hlen). }
    assert (0 <= IZR (size_t_sub n 1) ^ 2 / entry C 0)%R.
    { unfold Rdiv. apply Rmult_le_pos; [apply pow2_ge_0|].
      apply Rlt_le, Rinv_0_lt_compat, Hread, (zero_index_lt C n Hlen). }
    lra.
  - apply sqrt_lt_R0, big_sum_pos.
    + pose proof (Nat.pow_nonzero 2 n). lia.
    + intros b Hb. apply inv_pos, (read_entry C Hpos). by rewrite Hlen.
Qed.

Lemma sigma_positive_witness :
  ∃ s1 s2, sigma_uni [1; 2; 3; 4]%R 2 = Some s1
           ∧ sigma_all [1; 2; 3; 4]%R = Some s2 ∧ (0 < s1)%R ∧ (0 < s2)%R.
Proof.
  apply sigma_positive; [reflexivity|].
  intros c Hc. repeat (apply elem_of_cons in Hc as [->|Hc]; [lra|]).
  by apply elem_of_nil in Hc.
Defined.

(** X12: for a candidate of two tokens the two methods coincide: on a
    vector of size 4 with positive entries [sigma_uni] equals [sigma_all] and
    [lambda_uni] equals [lambda_all]. *)
Theorem estimators_agree_on_pairs (C : list R) :
  length C = 4 → (∀ c, c ∈ C → (0 < c)%R) →
  sigma_uni C 2 = sigma_all C ∧ lambda_uni C 2 = lambda_all C 2.
Proof.
  intros Hlen Hpos.
  assert (Z.of_nat (length C) < 2 ^ 64)%Z as Hsize by (rewrite Hlen; done).
  rewrite (sigma_uni_ok C 2), (lambda_uni_ok C 2), (sigma_all_ok C 2),
    (lambda_all_ok C 2) by (done || lia).
  unfold sigma_uni_spec, lambda_uni_spec, sigma_all_spec, lambda_all_spec.
  split; f_equal.
  - f_equal. simpl. lra.
  - simpl. lra.
Qed.

Lemma estimators_agree_on_pairs_witness :
  sigma_uni [1; 2; 3; 4]%R 2 = sigma_all [1; 2; 3; 4]%R
  ∧ lambda_uni [1; 2; 3; 4]%R 2 = lambda_all [1; 2; 3; 4]%R 2.
Proof.
  apply estimators_agree_on_pairs; [reflexivity|].
  intros c Hc. repeat (apply elem_of_cons in Hc as [->|Hc]; [lra|]).
  by apply elem_of_nil in Hc.
Defined.

(** ** Candidate estimator *)

Lemma vec_sum_alter (v : list R) k x :
  k < length v → vec_sum (alter (λ c, c + x)%R k v) = (vec_sum v + x)%R.
Proof.
  unfold vec_sum. revert k.
  induction v as [|c v IH]; intros k Hk; simpl in *; [lia|].
  destruct k as [|k]; simpl; [lra|].
  change (list_alter ?f k v) with (alter f k v).
  rewrite IH by lia. lra.
Qed.

Lemma vec_sum_replicate n x : vec_sum (replicate n x) = (INR n * x)%R.
Proof.
  unfold vec_sum. induction n as [|n IH]; [simpl; lra|].
  rewrite S_INR. cbn [replicate foldr]. rewrite IH. lra.
Qed.

Lemma total_app cs1 cs2 : total (cs1 ++ cs2) = (total cs1 + total cs2)%Z.
Proof. unfold total. induction cs1 as [|c cs1 IH]; simpl; lia. Qed.

(** The loop over [j] adds to the vector the counts of all candidates but
    [i]. *)
Lemma contingency_loop_sum i (seqs : list (list N)) (cs : list Z)
    (v0 : list R) m v :
  for_each (counts_bit_body i seqs cs) v0 (seq 0 m) = Some v →
  vec_sum v =
  (vec_sum v0
   + IZR (total (take m cs)
          - if decide (i < m)%nat then default 0 (cs !! i) else 0)%Z)%R.
Proof.
  revert v. induction m as [|m IH]; intros v.
  - intros [= <-]. rewrite decide_False by lia. rewrite take_0.
    change (total [] - 0)%Z with 0%Z. lra.
  - rewrite seq_S, for_each_snoc. simpl.
    destruct (for_each _ v0 (seq 0 m)) as [v1|]; [|done]. simpl.
    specialize (IH v1 eq_refl).
    unfold counts_bit_body. destruct (decide (i = m)) as [->|Hne].
    + intros [= <-]. rewrite IH.
      rewrite decide_False, decide_True by lia.
      destruct (cs !! m) as [c|] eqn:Hc; simpl.
      * rewrite (take_S_r _ _ _ Hc), total_app. simpl.
        f_equal. f_equal. lia.
      * rewrite (take_ge cs (S m)), (take_ge cs m)
          by (apply lookup_ge_None in Hc; lia).
        done.
    + destruct (seqs !! i) as [si|]; [|done].
      destruct (seqs !! m) as [sj|]; [|done]. simpl.
      destruct (match_bit2 si sj) as [bit|]; [|done]. simpl.
      destruct (cs !! m) as [c|] eqn:Hc; [|done]. simpl.
      intros [Hk ->]%vec_add_Some.
      rewrite vec_sum_alter, IH by done.
      rewrite (take_S_r _ _ _ Hc), total_app. simpl.
      rewrite Rplus_assoc, <- plus_IZR. do 2 f_equal.
      destruct (decide (i < m)), (decide (i < S m)); lia.
Qed.

(** X13: the contingency vector of a candidate of [n] tokens carries the
    whole table: its entries add up to the [2^n] priors of one half plus the
    sum of all counts, less one. *)
Theorem contingency_mass (i : nat) (seqs : list (list N)) (cs : list Z)
    (si : list N) (v : list R) :
  seqs !! i = Some si → length cs = length seqs →
  contingency i seqs cs = Some v →
  vec_sum v = (INR (2 ^ length si) / 2 + IZR (total cs) - 1)%R.
Proof.
  intros Hsi Hcs. unfold contingency. rewrite Hsi. simpl.
  destruct (for_each _ _ _) as [v1|] eqn:Hv1; [|done]. simpl.
  destruct (cs !! i) as [ci|] eqn:Hci; [|done]. simpl.
  intros [Hk ->]%vec_add_Some.
  rewrite vec_sum_alter by done.
  rewrite (contingency_loop_sum _ _ _ _ _ _ Hv1), vec_sum_replicate.
  rewrite decide_True by (rewrite <- Hcs; by eapply lookup_lt_Some).
  rewrite Hci, take_ge by lia. simpl.
  rewrite !minus_IZR. lra.
Qed.

Lemma contingency_mass_witness :
  vec_sum [0.5 + 1 + 7; 0.5 + 5; 0.5; 0.5 + IZR (2 - 1)]%R =
  (INR (2 ^ length [1; 2]%N) / 2 + IZR (total [2; 1; 5; 7]%Z) - 1)%R.
Proof.
  apply (contingency_mass 0 [[1; 2]; [2; 3]; [1; 3]; [4]]%N [2; 1; 5; 7]%Z).
  - reflexivity.
  - reflexivity.
  - unfold contingency, vec_add, for_each, counts_bit_body. simpl. reflexivity.
Defined.

Lemma vec_set_Some (v : list (option R)) k x v' :
  vec_set v k x = Some v' → k < length v ∧ v' = <[k := x]> v.
Proof. unfold vec_set. case_decide; [|done]. by intros [= <-]. Qed.

(** The shape of one call of [estimates]: it fails, or leaves the score
    vectors alone, or writes two values that do not depend on them. *)
Lemma estimates_shape i (seqs : list (list N)) (cs : list Z) method count_min :
  (∀ ss ls, estimates i seqs cs ss ls method count_min = None)
  ∨ (∀ ss ls, estimates i seqs cs ss ls method count_min = Some (ss, ls))
  ∨ ∃ x y, ∀ ss ls,
      estimates i seqs cs ss ls method count_min =
      ss' ← vec_set ss i x; ls' ← vec_set ls i y; Some (ss', ls').
Proof.
  unfold estimates.
  destruct (seqs !! i) as [si|]; simpl; [|by left].
  case_decide; [right; by left|].
  destruct (cs !! i) as [ci|]; simpl; [|by left].
  case_decide; [right; by left|].
  destruct (contingency i seqs cs) as [v|]; simpl; [|by left].
  right. right. case_decide; by do 2 eexists.
Qed.

Lemma estimates_slot (i : nat) (seqs : list (list N)) (cs : list Z)
    (ss ls ss' ls' : list (option R)) (method : string) (count_min : Z) :
  estimates i seqs cs ss ls method count_min = Some (ss', ls') →
  length ss' = length ss ∧ length ls' = length ls
  ∧ ∀ k, k ≠ i → ss' !! k = ss !! k ∧ ls' !! k = ls !! k.
Proof.
  intros Hest.
  destruct (estimates_shape i seqs cs method count_min)
    as [Hs|[Hs|(x & y & Hs)]]; rewrite Hs in Hest; [done| |].
  - by injection Hest as <- <-.
  - destruct (vec_set ss i x) as [ss1|] eqn:H1; [|done]. simpl in Hest.
    destruct (vec_set ls i y) as [ls1|] eqn:H2; [|done]. simpl in Hest.
    injection Hest as <- <-.
    apply vec_set_Some in H1 as [_ ->]. apply vec_set_Some in H2 as [_ ->].
    rewrite !length_insert. repeat split; by rewrite list_lookup_insert_ne.
Qed.

(** X14: a call [estimates(i, ...)] that returns has written to slot [i] of
    the two score vectors at most: their sizes and all other slots are as
    before. *)
Theorem estimates_own_slot (i : nat) (seqs : list (list N)) (cs : list Z)
    (ss ls ss' ls' : list (option R)) (method : string) (count_min : Z) :
  estimates i seqs cs ss ls method count_min = Some (ss', ls') →
  length ss' = length ss ∧ length ls' = length ls
  ∧ ∀ k, k ≠ i → ss' !! k = ss !! k ∧ ls' !! k = ls !! k.
Proof. apply estimates_slot. Qed.

Lemma estimates_own_slot_witness :
  ∃ ss' ls',
    estimates 0 [[1; 2]; [3]]%N [1; 4]%Z [None; None] [None; None] "unigram" 1
      = Some (ss', ls')
    ∧ length ss' = 2 ∧ length ls' = 2 ∧ ss' !! 1 = Some None.
Proof.
  destruct (estimates 0 [[1; 2]; [3]]%N [1; 4]%Z [None; None] [None; None]
              "unigram" 1) as [[ss' ls']|] eqn:Hest.
  - exists ss', ls'.
    destruct (estimates_own_slot _ _ _ _ _ _ _ _ _ Hest) as (H1 & H2 & H3).
    repeat split; [done | done |]. by rewrite (proj1 (H3 1 ltac:(lia))).
  - exfalso. revert Hest.
    unfold estimates, contingency, vec_add, vec_set, for_each, counts_bit_body.
    simpl. discriminate.
Defined.

Lemma vec_set_comm (v : list (option R)) i j x y :
  i ≠ j →
  (v1 ← vec_set v i x; vec_set v1 j y) = (v1 ← vec_set v j y; vec_set v1 i x).
Proof.
  intros Hne. unfold vec_set.
  destruct (decide (i < length v)), (decide (j < length v)); simpl;
    rewrite ?length_insert; repeat case_decide; try done; try lia.
  f_equal. symmetry. by apply list_insert_insert_ne.
Qed.

Lemma estimates_comm i j (seqs : list (list N)) (cs : list Z) method count_min
    (st : list (option R) * list (option R)) :
  i ≠ j →
  (st1 ← estimates i seqs cs st.1 st.2 method count_min;
   estimates j seqs cs st1.1 st1.2 method count_min)
  = (st1 ← estimates j seqs cs st.1 st.2 method count_min;
     estimates i seqs cs st1.1 st1.2 method count_min).
Proof.
  intros Hne. destruct st as [ss ls]. simpl.
  destruct (estimates_shape i seqs cs method count_min)
    as [Hi|[Hi|(x & y & Hi)]],
     (estimates_shape j seqs cs method count_min)
    as [Hj|[Hj|(x' & y' & Hj)]];
    rewrite ?Hi, ?Hj; simpl; rewrite ?Hi, ?Hj; simpl; try done.
  all: unfold vec_set;
    destruct (decide (i < length ss)), (decide (j < length ss)),
      (decide (i < length ls)), (decide (j < length ls)); simpl;
    rewrite ?Hi, ?Hj; simpl; unfold vec_set; rewrite ?length_insert;
    repeat case_decide; simpl; try done; try lia.
  by rewrite (list_insert_insert_ne ss), (list_insert_insert_ne ls).
Qed.

(** ** The workers *)

Lemma for_each_app {A S : Type} (body : S → A → option S) s l1 l2 :
  for_each body s (l1 ++ l2) = s' ← for_each body s l1; for_each body s' l2.
Proof.
  revert s. induction l1 as [|x l1 IH]; intros s; simpl; [done|].
  destruct (body s x) as [s'|]; simpl; [apply IH | done].
Qed.

Lemma seq_split b m e :
  b ≤ m → m ≤ e → seq b (e - b) = seq b (m - b) ++ seq m (e - m).
Proof.
  intros Hbm Hme. replace (e - b) with ((m - b) + (e - m)) by lia.
  rewrite seq_app. do 2 f_equal. lia.
Qed.

Lemma counts_mt_call_Some (texts : list (list N)) (counts_seq : gmap (list N) Z)
    (len_min len_max : nat) (nested : bool) b e :
  e ≤ length texts →
  counts_mt_call texts counts_seq len_min len_max nested b e =
  Some (foldl (λ m t, counts t m len_min len_max nested) counts_seq
          (take (e - b) (drop b texts))).
Proof.
  unfold counts_mt_call. intros He.
  remember (e - b) as k eqn:Hk. revert b counts_seq Hk.
  induction k as [|k IH]; intros b tbl Hk; [done|].
  simpl. destruct (lookup_lt_is_Some_2 texts b) as [t Ht]; [lia|].
  rewrite Ht. simpl. rewrite IH by lia.
  by rewrite (drop_S _ _ _ Ht).
Qed.

(** X15: a call of the worker [counts_mt] over the whole range of texts
    produces the table of the sequential loop, and a call whose range ends
    beyond the last text is undefined. *)
Theorem counts_mt_call_all (texts : list (list N)) (len_min len_max : nat)
    (nested : bool) :
  counts_mt_call texts ∅ len_min len_max nested 0 (length texts)
  = Some (count_texts texts len_min len_max nested)
  ∧ ∀ counts_seq b e,
      b < e → length texts < e →
      counts_mt_call texts counts_seq len_min len_max nested b e = None.
Proof.
  split.
  - rewrite counts_mt_call_Some by done.
    by rewrite Nat.sub_0_r, drop_0, firstn_all.
  - intros tbl b e Hbe He. unfold counts_mt_call.
    rewrite (seq_split b (b `max` length texts) e) by lia.
    rewrite for_each_app.
    destruct (for_each _ tbl _) as [tbl'|]; simpl; [|done].
    replace (e - b `max` length texts)
      with (S (e - S (b `max` length texts))) by lia.
    simpl. rewrite lookup_ge_None_2 by lia. done.
Qed.

Lemma counts_mt_call_all_witness :
  counts_mt_call [[1; 2]; [3]]%N ∅ 1 2 true 1 3 = None.
Proof.
  apply (proj2 (counts_mt_call_all [[1; 2]; [3]]%N 1 2 true)); simpl; lia.
Defined.

(** X16: the chunks of a range of texts can be handed to [counts_mt] in
    either order: both orders give the table of the single call over the
    whole range. *)
Theorem counts_mt_call_chunks (texts : list (list N))
    (counts_seq : gmap (list N) Z) (len_min len_max : nat) (nested : bool)
    (b m e : nat) :
  b ≤ m → m ≤ e → e ≤ length texts →
  let call := counts_mt_call texts in
  (t ← call counts_seq len_min len_max nested b m;
   call t len_min len_max nested m e)
  = call counts_seq len_min len_max nested b e
  ∧ (t ← call counts_seq len_min len_max nested m e;
     call t len_min len_max nested b m)
    = call counts_seq len_min len_max nested b e.
Proof.
  intros Hbm Hme He call. unfold call.
  rewrite !counts_mt_call_Some by lia. simpl.
  rewrite !counts_mt_call_Some by lia.
  assert (take (e - b) (drop b texts)
          = take (m - b) (drop b texts) ++ take (e - m) (drop m texts)) as Hsplit.
  { replace (e - b) with ((m - b) + (e - m)) by lia.
    rewrite <- take_take_drop, drop_drop. do 3 f_equal. lia. }
  rewrite Hsplit, foldl_app. split; [done|].
  rewrite <- !foldl_app. f_equal.
  apply foldl_counts_perm, Permutation_app_comm.
Qed.

Lemma counts_mt_call_chunks_witness :
  let call := counts_mt_call [[1; 2]; [3]; [1; 2; 3]]%N in
  (t ← call ∅ 1 2 true 0 1; call t 1 2 true 1 3) = call ∅ 1 2 true 0 3
  ∧ (t ← call ∅ 1 2 true 1 3; call t 1 2 true 0 1) = call ∅ 1 2 true 0 3.
Proof. apply counts_mt_call_chunks; simpl; lia. Defined.

Lemma estimates_step_eq (seqs : list (list N)) (cs : list Z) method count_min
    (st : list (option R) * list (option R)) i :
  (λ '(ss, ls) i, estimates i seqs cs ss ls method count_min) st i
  = estimates i seqs cs st.1 st.2 method count_min.
Proof. by destruct st. Qed.

(** The estimation loop visits its indices in any order. *)
Lemma estimates_loop_perm (seqs : list (list N)) (cs : list Z) method count_min
    (l l' : list nat) (st : list (option R) * list (option R)) :
  NoDup l → l ≡ₚ l' →
  for_each (λ '(ss, ls) i, estimates i seqs cs ss ls method count_min) st l
  = for_each (λ '(ss, ls) i, estimates i seqs cs ss ls method count_min) st l'.
Proof.
  intros Hnd Hp. revert st Hnd.
  induction Hp as [|x l l' Hp IH|x y l|l1 l2 l3 Hp1 IH1 Hp2 IH2];
    intros [ss ls] Hnd.
  - done.
  - apply NoDup_cons in Hnd as [_ Hnd]. cbn [for_each].
    destruct (estimates x seqs cs ss ls method count_min) as [st'|]; simpl;
      [by apply IH | done].
  - assert (y ≠ x) as Hne.
    { apply NoDup_cons in Hnd as [Hy _]. intros ->. apply Hy. left. }
    cbn [for_each].
    pose proof (estimates_comm y x seqs cs method count_min (ss, ls) Hne) as Hc.
    simpl in Hc.
    destruct (estimates y seqs cs ss ls method count_min) as [[ss1 ls1]|],
      (estimates x seqs cs ss ls method count_min) as [[ss2 ls2]|];
      simpl in *.
    all: first [done | by rewrite Hc | by rewrite <- Hc].
  - rewrite IH1 by done. apply IH2. by rewrite <- Hp1.
Qed.

(** X17: the chunks of a range of candidates can be handed to
    [estimates_mt] in either order: both orders give the score vectors of
    the single call over the whole range. *)
Theorem estimates_mt_call_chunks (seqs : list (list N)) (cs : list Z)
    (ss ls : list (option R)) (method : string) (count_min : Z) (b m e : nat) :
  b ≤ m → m ≤ e →
  let call := estimates_mt_call seqs cs in
  (st ← call ss ls method count_min b m; call st.1 st.2 method count_min m e)
  = call ss ls method count_min b e
  ∧ (st ← call ss ls method count_min m e; call st.1 st.2 method count_min b m)
    = call ss ls method count_min b e.
Proof.
  intros Hbm Hme call. unfold call, estimates_mt_call.
  assert (∀ (st : list (option R) * list (option R)) l,
            for_each (λ '(ss, ls) i,
                estimates i seqs cs ss ls method (uint_to_int count_min))
              (st.1, st.2) l
            = for_each (λ '(ss, ls) i,
                estimates i seqs cs ss ls method (uint_to_int count_min))
                st l) as Hst by (by intros [??] ?).
  split.
  - rewrite (seq_split b m e) by done. rewrite for_each_app.
    destruct (for_each _ _ (seq b (m - b))) as [st|]; simpl; [apply Hst | done].
  - rewrite (estimates_loop_perm _ _ _ _ (seq b (e - b))
               (seq m (e - m) ++ seq b (m - b))).
    + rewrite for_each_app.
      destruct (for_each _ _ (seq m (e - m))) as [st|]; simpl;
        [apply Hst | done].
    + apply NoDup_seq.
    + rewrite (seq_split b m e) by done. apply Permutation_app_comm.
Qed.

Lemma estimates_mt_call_chunks_witness :
  let call := estimates_mt_call [[1; 2]; [3]; [2; 3]]%N [2; 5; 1]%Z in
  (st ← call [None; None; None] [None; None; None] "unigram" 1%Z 0 1;
   call st.1 st.2 "unigram" 1%Z 1 3)
  = call [None; None; None] [None; None; None] "unigram" 1%Z 0 3
  ∧ (st ← call [None; None; None] [None; None; None] "unigram" 1%Z 1 3;
     call st.1 st.2 "unigram" 1%Z 0 1)
    = call [None; None; None] [None; None; None] "unigram" 1%Z 0 3.
Proof. apply estimates_mt_call_chunks; lia. Defined.

(** ** The driver, row by row *)

Lemma estimates_loop_lengths (seqs : list (list N)) (cs : list Z) method
    count_min (l : list nat) (ss0 ls0 ss ls : list (option R)) :
  for_each (λ '(ss, ls) i, estimates i seqs cs ss ls method count_min)
    (ss0, ls0) l = Some (ss, ls) →
  length ss = length ss0 ∧ length ls = length ls0.
Proof.
  revert ss0 ls0. induction l as [|i l IH]; intros ss0 ls0.
  - by intros [= <- <-].
  - cbn [for_each].
    destruct (estimates i seqs cs ss0 ls0 method count_min)
      as [[ss1 ls1]|] eqn:Hest; [|done]. simpl.
    intros [-> ->]%IH. apply estimates_slot in Hest as (? & ? & _). done.
Qed.

Lemma estimates_defined i (seqs : list (list N)) (cs : list Z)
    (ss ls : list (option R)) method count_min :
  i < length seqs → length cs = length seqs →
  length ss = length seqs → length ls = length seqs →
  (∀ s, s ∈ seqs → length s ≤ 31) →
  is_Some (estimates i seqs cs ss ls method count_min).
Proof.
  intros Hi Hcs Hss Hls Hshort. unfold estimates.
  destruct (lookup_lt_is_Some_2 seqs i Hi) as [si Hsi]. rewrite Hsi. simpl.
  case_decide; [by eexists|].
  destruct (lookup_lt_is_Some_2 cs i) as [ci ->]; [lia|]. simpl.
  case_decide; [by eexists|].
  destruct (contingency_defined i seqs cs si) as [v ->]; try done.
  { apply Hshort. by eapply list_elem_of_lookup_2. }
  simpl. unfold vec_set.
  case_decide; rewrite !decide_True by lia; by eexists.
Qed.

Lemma estimates_loop_defined (seqs : list (list N)) (cs : list Z) method
    count_min (l : list nat) (ss ls : list (option R)) :
  (∀ i, i ∈ l → i < length seqs) → length cs = length seqs →
  length ss = length seqs → length ls = length seqs →
  (∀ s, s ∈ seqs → length s ≤ 31) →
  is_Some (for_each (λ '(ss, ls) i,
                       estimates i seqs cs ss ls method count_min) (ss, ls) l).
Proof.
  intros Hl Hcs Hss Hls Hshort. revert ss ls Hss Hls.
  induction l as [|i l IH]; intros ss ls Hss Hls; [by eexists|].
  cbn [for_each].
  destruct (estimates_defined i seqs cs ss ls method count_min)
    as [[ss1 ls1] Hest]; try done; [apply Hl; left|].
  rewrite Hest. simpl.
  apply estimates_slot in Hest as (? & ? & _).
  apply IH; [|lia..]. intros k Hk. apply Hl. by right.
Qed.

(** After the loop, the slot of a candidate that passes the filters holds
    the estimates computed from its contingency vector. *)
Lemma estimates_loop_slot (seqs : list (list N)) (cs : list Z) method count_min
    (ss0 ls0 ss ls : list (option R)) m i (si : list N) (ci : Z) :
  for_each (λ '(ss, ls) i, estimates i seqs cs ss ls method count_min)
    (ss0, ls0) (seq 0 m) = Some (ss, ls) →
  i < m → seqs !! i = Some si → cs !! i = Some ci →
  length si ≠ 1 → (count_min ≤ ci)%Z →
  ∃ v, contingency i seqs cs = Some v
       ∧ ss !! i = Some (if decide (method = "unigram")
                         then sigma_uni v (length si) else sigma_all v)
       ∧ ls !! i = Some (if decide (method = "unigram")
                         then lambda_uni v (length si)
                         else lambda_all v (length si)).
Proof.
  intros Hloop Hi Hsi Hci Hn Hmin. revert ss ls Hloop Hi.
  induction m as [|m IH]; intros ss ls Hloop Hi; [lia|].
  rewrite seq_S, for_each_snoc in Hloop. simpl in Hloop.
  destruct (for_each _ _ (seq 0 m)) as [[ss1 ls1]|] eqn:Hm; [|done].
  simpl in Hloop. destruct (decide (i = m)) as [->|Hne].
  - clear IH. unfold estimates in Hloop. rewrite Hsi, Hci in Hloop.
    simpl in Hloop. rewrite !decide_False in Hloop by lia.
    destruct (contingency m seqs cs) as [v|]; [|done]. simpl in Hloop.
    exists v. split; [done|].
    destruct (decide (method = "unigram"));
      (destruct (vec_set ss1 m _) as [ss2|] eqn:H1; [|done]);
      simpl in Hloop;
      (destruct (vec_set ls1 m _) as [ls2|] eqn:H2; [|done]);
      simpl in Hloop; injection Hloop as <- <-;
      apply vec_set_Some in H1 as [? ->]; apply vec_set_Some in H2 as [? ->];
      by rewrite !list_lookup_insert_eq.
  - destruct (IH ss1 ls1 eq_refl ltac:(lia)) as (v & Hv & Hs & Hl).
    exists v. split; [done|].
    apply estimates_slot in Hloop as (_ & _ & Hframe).
    destruct (Hframe i Hne) as [-> ->]. done.
Qed.

Lemma contingency_positive i (seqs : list (list N)) (cs : list Z)
    (si : list N) (ci : Z) (v : list R) :
  seqs !! i = Some si → cs !! i = Some ci →
  (∀ c, c ∈ cs → (1 ≤ c)%Z) →
  contingency i seqs cs = Some v →
  length v = 2 ^ length si ∧ ∀ c, c ∈ v → (0 < c)%R.
Proof.
  intros Hsi Hci Hcs Hv.
  destruct (contingency_Some i seqs cs si v Hsi Hv) as [Hlen Hspec].
  split; [done|].
  intros c [b Hb]%list_elem_of_lookup_1.
  rewrite Hspec in Hb by (rewrite <- Hlen; by eapply lookup_lt_Some).
  injection Hb as <-. unfold contingency_spec. rewrite Hci. simpl.
  assert (∀ c, c ∈ cs → (0 ≤ c)%Z) as Hcs0
    by (intros c Hc; apply Hcs in Hc; lia).
  pose proof (IZR_le _ _ (bucket_weight_nonneg i seqs cs b (length seqs) Hcs0)).
  case_decide; [|lra].
  assert (1 ≤ ci)%Z by (by eapply Hcs, list_elem_of_lookup_2).
  assert (0 <= IZR (ci - 1))%R by (apply IZR_le; lia). lra.
Qed.

Lemma flat_row (m : gmap (list N) Z) i (s : list N) (c : Z) :
  (map_to_list m).*1 !! i = Some s → (map_to_list m).*2 !! i = Some c →
  m !! s = Some c.
Proof.
  rewrite !list_lookup_fmap.
  destruct (map_to_list m !! i) as [[s' c']|] eqn:Hrow; [|done]. simpl.
  intros [= <-] [= <-]. by eapply elem_of_map_to_list, list_elem_of_lookup_2.
Qed.

Lemma flat_counts (m : gmap (list N) Z) (c : Z) :
  c ∈ (map_to_list m).*2 → ∃ s, m !! s = Some c.
Proof.
  intros ([s c'] & -> & Hin)%list_elem_of_fmap.
  exists s. by apply elem_of_map_to_list.
Qed.

Lemma flat_keys (m : gmap (list N) Z) (s : list N) :
  s ∈ (map_to_list m).*1 → ∃ c, m !! s = Some c.
Proof.
  intros ([s' c] & -> & Hin)%list_elem_of_fmap.
  exists c. by apply elem_of_map_to_list.
Qed.

Lemma count_texts_inv (texts : list (list N)) (len_min len_max : nat)
    (nested : bool) (key : list N) (c : Z) :
  count_texts texts len_min len_max nested !! key = Some c →
  (1 ≤ c)%Z ∧ length key ≤ len_max.
Proof.
  unfold count_texts.
  apply (foldl_counts_entries texts ∅ len_min len_max nested
           (λ key c, (1 ≤ c)%Z ∧ length key ≤ len_max)).
  - intros k c0 h [? ?]. split; [lia | done].
  - intros k h Hh Hlen Hz. split; lia.
  - intros k c0 Hk. by rewrite lookup_empty in Hk.
Qed.

(** X18: the result has one row per distinct n-gram of the frequency table:
    all six columns have the size of the table, no sequence occurs twice, and
    the sequences with their counts are exactly the entries of the table. *)
Theorem qatd_cpp_sequences_rows
    (join : list N → list string → string → string) (texts : list (list N))
    (types_ : list string) (count_min : Z) (len_min len_max : nat)
    (method : string) (nested : bool) (df : DataFrame) :
  qatd_cpp_sequences join texts types_ count_min len_min len_max method nested
    = Returned df →
  let tbl := count_texts texts len_min len_max nested in
  (length (tokens df) = size tbl ∧ length (collocation df) = size tbl
   ∧ length (count df) = size tbl ∧ length (length_ df) = size tbl
   ∧ length (lambda df) = size tbl ∧ length (sigma df) = size tbl)
  ∧ NoDup (tokens df)
  ∧ ∀ s c, tbl !! s = Some c
           ↔ ∃ i, tokens df !! i = Some s ∧ count df !! i = Some c.
Proof.
  intros Hrun tbl. unfold qatd_cpp_sequences in Hrun. fold tbl in Hrun.
  destruct (for_each _ _ _) as [[ss ls]|] eqn:Hloop; [|done].
  injection Hrun as <-. simpl.
  apply estimates_loop_lengths in Hloop as [Hss Hls].
  unfold DoubleParams_new in Hss, Hls. rewrite length_replicate in Hss, Hls.
  split; [|split].
  - rewrite !length_fmap, length_map_to_list. done.
  - apply NoDup_fst_map_to_list.
  - intros s c. split.
    + intros [i Hi]%elem_of_map_to_list%list_elem_of_lookup_1.
      exists i. rewrite !list_lookup_fmap, Hi. done.
    + intros (i & Hs & Hc). by eapply flat_row.
Qed.

Lemma qatd_cpp_sequences_rows_witness :
  ∃ df, qatd_cpp_sequences join_none [[5]]%N [] 1%Z 1 1 "unigram" false
        = Returned df ∧ length (tokens df) = 1 ∧ NoDup (tokens df).
Proof.
  assert (qatd_cpp_sequences join_none [[5]]%N [] 1%Z 1 1 "unigram" false
          = Returned {| collocation := [EmptyString]; count := [1%Z];
                        length_ := [1%Z]; lambda := [None]; sigma := [None];
                        tokens := [[5%N]] |}) as Hrun.
  { unfold qatd_cpp_sequences.
    assert (count_texts [[5%N]] 1 1 false = {[ [5%N] := 1%Z ]}) as ->
      by (vm_compute; reflexivity).
    rewrite map_to_list_singleton, map_size_singleton. reflexivity. }
  eexists. split; [exact Hrun|].
  destruct (qatd_cpp_sequences_rows _ _ _ _ _ _ _ _ _ Hrun)
    as ((Hlen & _) & Hnd & _).
  split; [|exact Hnd]. reflexivity.
Defined.

(** X19: with [len_max ≤ 31] a run meets no undefined behaviour: the driver
    returns a data frame, whatever the corpus and the other parameters. *)
Theorem qatd_cpp_sequences_defined
    (join : list N → list string → string → string) (texts : list (list N))
    (types_ : list string) (count_min : Z) (len_min len_max : nat)
    (method : string) (nested : bool) :
  len_max ≤ 31 →
  ∃ df, qatd_cpp_sequences join texts types_ count_min len_min len_max method
          nested = Returned df.
Proof.
  intros Hmax. unfold qatd_cpp_sequences.
  set (tbl := count_texts texts len_min len_max nested).
  destruct (estimates_loop_defined (map_to_list tbl).*1 (map_to_list tbl).*2
              method (uint_to_int count_min)
              (seq 0 (length (map_to_list tbl).*1))
              (DoubleParams_new (size tbl)) (DoubleParams_new (size tbl)))
    as [[ss ls] Hloop].
  - intros i Hi%elem_of_seq. lia.
  - by rewrite !length_fmap.
  - unfold DoubleParams_new.
    by rewrite length_replicate, length_fmap, length_map_to_list.
  - unfold DoubleParams_new.
    by rewrite length_replicate, length_fmap, length_map_to_list.
  - intros s [c Hc]%flat_keys. apply count_texts_inv in Hc. lia.
  - rewrite Hloop. by eexists.
Qed.

Lemma qatd_cpp_sequences_defined_witness :
  ∃ df, qatd_cpp_sequences join_none [[1; 2; 3]; [2; 3]]%N [] 1%Z 1 3
          "lambda" true = Returned df.
Proof. apply qatd_cpp_sequences_defined. lia. Defined.

(** X20: in the result, a row whose sequence does not have exactly one token
    and whose count reaches the threshold (as [estimates] receives it) holds
    the sigma and lambda that the chosen method computes from the row's
    contingency vector, and both are finite numbers. *)
Theorem qatd_cpp_sequences_scored
    (join : list N → list string → string → string) (texts : list (list N))
    (types_ : list string) (count_min : Z) (len_min len_max : nat)
    (method : string) (nested : bool) (df : DataFrame)
    (i : nat) (s : list N) (c : Z) :
  qatd_cpp_sequences join texts types_ count_min len_min len_max method nested
    = Returned df →
  tokens df !! i = Some s → count df !! i = Some c →
  length s ≠ 1 → (uint_to_int count_min ≤ c)%Z →
  ∃ v g l,
    contingency i (tokens df) (count df) = Some v
    ∧ sigma df !! i = Some (Some g) ∧ lambda df !! i = Some (Some l)
    ∧ Some g = (if decide (method = "unigram")
                then sigma_uni v (length s) else sigma_all v)
    ∧ Some l = (if decide (method = "unigram")
                then lambda_uni v (length s) else lambda_all v (length s)).
Proof.
  unfold qatd_cpp_sequences.
  set (tbl := count_texts texts len_min len_max nested).
  destruct (for_each _ _ _) as [[ss ls]|] eqn:Hloop; [|done].
  intros [= <-]. simpl. intros Hs Hc Hn Hmin.
  destruct (estimates_loop_slot _ _ _ _ _ _ _ _ _ i s c Hloop)
    as (v & Hv & Hsig & Hlam); try done.
  { apply lookup_lt_Some in Hs. done. }
  destruct (contingency_positive i _ _ s c v Hs Hc) as [Hlen Hpos]; [|done|].
  { intros c' [s' Hc']%flat_counts. by apply count_texts_inv in Hc' as [? _]. }
  exists v.
  rewrite Hsig, Hlam.
  rewrite (sigma_uni_value v (length s)), (lambda_uni_value v (length s)),
    (sigma_all_value v (length s)), (lambda_all_value v (length s)) by done.
  destruct (decide (method = "unigram")); by do 2 eexists.
Qed.

Lemma qatd_cpp_sequences_scored_witness :
  ∃ v g l,
    contingency 0 [[1; 2]%N] [1%Z] = Some v
    ∧ [Some (sigma_all_spec [0.5; 0.5; 0.5; 0.5]%R 2)] !! 0 = Some (Some g)
    ∧ [Some (lambda_all_spec [0.5; 0.5; 0.5; 0.5]%R 2)] !! 0 = Some (Some l)
    ∧ Some g = (if decide ("lambda" = "unigram")
                then sigma_uni v (length [1; 2]%N) else sigma_all v)
    ∧ Some l = (if decide ("lambda" = "unigram")
                then lambda_uni v (length [1; 2]%N)
                else lambda_all v (length [1; 2]%N)).
Proof.
  assert (qatd_cpp_sequences join_none [[1; 2]]%N [] 1%Z 2 2 "lambda" false
          = Returned
              {| collocation := [EmptyString]; count := [1%Z];
                 length_ := [2%Z];
                 lambda := [Some (lambda_all_spec [0.5; 0.5; 0.5; 0.5]%R 2)];
                 sigma := [Some (sigma_all_spec [0.5; 0.5; 0.5; 0.5]%R 2)];
                 tokens := [[1; 2]%N] |}) as Hrun.
  { unfold qatd_cpp_sequences.
    assert (count_texts [[1; 2]%N] 2 2 false = {[ [1; 2]%N := 1%Z ]}) as ->
      by (vm_compute; reflexivity).
    rewrite map_to_list_singleton, map_size_singleton.
    simpl. unfold estimates. simpl.
    change (1 - 1)%Z with 0%Z. rewrite Rplus_0_r.
    assert (∀ c, c ∈ [0.5; 0.5; 0.5; 0.5]%R → (0 < c)%R) as Hpos.
    { intros c Hc. repeat (apply elem_of_cons in Hc as [->|Hc]; [lra|]).
      by apply elem_of_nil in Hc. }
    rewrite (sigma_all_ok _ 2), (lambda_all_ok _ 2) by (done || simpl; lia).
    reflexivity. }
  apply (qatd_cpp_sequences_scored join_none [[1; 2]]%N [] 1%Z 2 2
           "lambda" false _ 0 [1; 2]%N 1%Z Hrun).
  - reflexivity.
  - reflexivity.
  - simpl. lia.
  - vm_compute. discriminate.
Defined.

Lemma count_texts_boundary_only (texts : list (list N)) (len_min len_max : nat)
    (nested : bool) :
  1 ≤ len_min → Forall (Forall (λ x, x = 0%N)) texts →
  count_texts texts len_min len_max nested = ∅.
Proof.
  intros Hmin Hz. unfold count_texts. generalize (∅ : gmap (list N) Z).
  induction Hz as [|text texts Ht _ IH]; intros tbl; simpl; [done|].
  by rewrite counts_boundary_only_id.
Qed.

(** X21: a corpus without tokens (no texts, empty texts, or texts of
    boundary tokens only) gives the data frame without rows when
    [len_min ≥ 1]. *)
Theorem qatd_cpp_sequences_no_tokens
    (join : list N → list string → string → string) (texts : list (list N))
    (types_ : list string) (count_min : Z) (len_min len_max : nat)
    (method : string) (nested : bool) :
  1 ≤ len_min → Forall (Forall (λ x, x = 0%N)) texts →
  qatd_cpp_sequences join texts types_ count_min len_min len_max method nested
  = Returned empty_frame.
Proof.
  intros Hmin Hz. unfold qatd_cpp_sequences.
  by rewrite count_texts_boundary_only.
Qed.

Lemma qatd_cpp_sequences_no_tokens_witness :
  qatd_cpp_sequences join_none [[]; [0; 0]%N; []] [] 1%Z 1 3 "unigram" true
  = Returned empty_frame.
Proof.
  apply qatd_cpp_sequences_no_tokens; [lia|]. by repeat constructor.
Defined.

(** ** More on the scan *)

Lemma unnested_starts_ge (text : list N) len_max fuel i k :
  k ∈ unnested_starts text len_max fuel i → i ≤ k.
Proof.
  revert i. induction fuel as [|fuel IH]; intros i; simpl.
  - by intros ?%elem_of_nil.
  - case_decide; [|by intros ?%elem_of_nil].
    intros [->|Hk%IH]%elem_of_cons; lia.
Qed.

Lemma unnested_starts_apart (text : list N) len_max fuel i a b ia ib :
  a < b →
  unnested_starts text len_max fuel i !! a = Some ia →
  unnested_starts text len_max fuel i !! b = Some ib →
  ia + length (run (drop ia text) len_max) < ib.
Proof.
  revert i a b. induction fuel as [|fuel IH]; intros i a b Hab; simpl; [done|].
  case_decide; [|done].
  destruct b as [|b]; [lia|]. destruct a as [|a]; simpl.
  - intros [= <-] Hb%list_elem_of_lookup_2%unnested_starts_ge. lia.
  - apply IH. lia.
Qed.

(** X22: with [nested = false] the windows that are closed never overlap and
    never touch: the table is obtained by closing the runs of a list of
    starts in which every start lies beyond the closing position of each
    earlier one. *)
Theorem counts_unnested_disjoint (text : list N) (counts_seq : gmap (list N) Z)
    (len_min len_max : nat) :
  let padded := text ++ [0%N] in
  let starts := scan_starts text len_max false in
  counts text counts_seq len_min len_max false
  = foldl (count_run padded len_min len_max) counts_seq starts
  ∧ ∀ a b ia ib,
      a < b → starts !! a = Some ia → starts !! b = Some ib →
      ia + length (run (drop ia padded) len_max) < ib.
Proof.
  split; [apply counts_scan|].
  unfold scan_starts. case_decide; [done|].
  apply unnested_starts_apart.
Qed.

Lemma counts_unnested_disjoint_witness :
  0 + length (run (drop 0 ([1; 2; 3; 4; 5]%N ++ [0%N])) 2) < 3.
Proof.
  apply (proj2 (counts_unnested_disjoint [1; 2; 3; 4; 5]%N ∅ 2 2) 0 1 0 3).
  - lia.
  - reflexivity.
  - reflexivity.
Defined.

Lemma hits_len_min (text : list N) (len_min len_min' len_max : nat)
    (key : list N) (starts : list nat) :
  len_min ≤ len_min' →
  hits text len_min' len_max key starts ≤ hits text len_min len_max key starts
  ∧ (len_min' ≤ length key →
     hits text len_min' len_max key starts = hits text len_min len_max key starts).
Proof.
  intros Hle. unfold hits.
  induction starts as [|i starts [IH1 IH2]]; [done|].
  rewrite !filter_cons.
  destruct (decide (run (drop i text) len_max = key ∧ len_min' ≤ length key))
    as [[? ?]|Hno].
  - rewrite decide_True by (split; [done | lia]). simpl.
    split; [lia|]. intros ?. by rewrite IH2.
  - split.
    + destruct (decide (run (drop i text) len_max = key ∧ len_min ≤ length key));
        simpl; lia.
    + intros Hkey. rewrite decide_False by (intros [? ?]; apply Hno; done).
      by apply IH2.
Qed.

(** X23: the threshold [len_min] only filters: raising it never raises a
    count, and leaves the counts of the keys that are still long enough as
    they were. *)
Theorem counts_len_min_filters (text : list N) (counts_seq : gmap (list N) Z)
    (len_min len_min' len_max : nat) (nested : bool) (key : list N) :
  len_min ≤ len_min' →
  (default 0 (counts text counts_seq len_min' len_max nested !! key)
   ≤ default 0 (counts text counts_seq len_min len_max nested !! key))%Z
  ∧ (len_min' ≤ length key →
     counts text counts_seq len_min' len_max nested !! key
     = counts text counts_seq len_min len_max nested !! key).
Proof.
  intros Hle.
  destruct (hits_len_min (text ++ [0%N]) len_min len_min' len_max key
              (scan_starts text len_max nested) Hle) as [H1 H2].
  split.
  - rewrite !counts_lookup_default. lia.
  - intros Hkey. rewrite !counts_lookup. simpl. by rewrite H2.
Qed.

Lemma counts_len_min_filters_witness :
  (default 0 (counts [1; 2; 3]%N ∅ 3 3 true !! [2; 3]%N)
   ≤ default 0 (counts [1; 2; 3]%N ∅ 2 3 true !! [2; 3]%N))%Z
  ∧ (3 ≤ length [2; 3]%N →
     counts [1; 2; 3]%N ∅ 3 3 true !! [2; 3]%N
     = counts [1; 2; 3]%N ∅ 2 3 true !! [2; 3]%N).
Proof. apply counts_len_min_filters. lia. Defined.

(** ** The driver and the order of the table *)

(** [qatd_cpp_sequences] is the driver under one iteration order. *)
Lemma qatd_cpp_sequences_from_table join (texts : list (list N))
    (types_ : list string) (count_min : Z) (len_min len_max : nat)
    (method : string) (nested : bool) :
  qatd_cpp_sequences join texts types_ count_min len_min len_max method nested
  = qatd_cpp_sequences_from join
      (map_to_list (count_texts texts len_min len_max nested)) types_
      count_min method.
Proof.
  unfold qatd_cpp_sequences, qatd_cpp_sequences_from.
  by rewrite length_map_to_list.
Qed.

Lemma key_weight_app (si : list N) b (l1 l2 : list (list N * Z)) :
  key_weight si b (l1 ++ l2) = (key_weight si b l1 + key_weight si b l2)%Z.
Proof.
  unfold key_weight. induction l1 as [|[sj c] l1 IH]; simpl; [done|].
  rewrite IH. lia.
Qed.

Lemma key_weight_perm (si : list N) b (flat flat' : list (list N * Z)) :
  flat ≡ₚ flat' → key_weight si b flat = key_weight si b flat'.
Proof.
  unfold key_weight.
  induction 1 as [|[sj c] l l' _ IH|[s1 c1] [s2 c2] l|l1 l2 l3 _ IH1 _ IH2];
    simpl; [done | by rewrite IH | lia | by rewrite IH1].
Qed.

(** Keys are distinct, so "another candidate" is "another key". *)
Lemma bucket_weight_key i (flat : list (list N * Z)) (si : list N) (ci : Z) b m :
  NoDup flat.*1 → flat !! i = Some (si, ci) → m ≤ length flat →
  bucket_weight i flat.*1 flat.*2 b m = key_weight si b (take m flat).
Proof.
  intros Hnd Hi. induction m as [|m IH]; intros Hm; [done|].
  destruct (lookup_lt_is_Some_2 flat m) as [[sj cj] Hj]; [lia|].
  rewrite (take_S_r _ _ _ Hj), key_weight_app, <- IH by lia.
  cbn [bucket_weight]. rewrite !list_lookup_fmap, Hi, Hj. simpl.
  f_equal. unfold key_weight. simpl.
  destruct (decide (m = i)) as [->|Hne].
  - rewrite Hi in Hj. injection Hj as <- <-.
    rewrite !decide_False by tauto. lia.
  - assert (sj ≠ si) as Hkey.
    { intros ->. apply Hne.
      eapply (NoDup_lookup flat.*1); [done | |];
        rewrite list_lookup_fmap; [by rewrite Hj | by rewrite Hi]. }
    destruct (decide (bitmask si sj = Z.of_nat b)).
    + rewrite !decide_True by done. lia.
    + rewrite !decide_False by tauto. lia.
Qed.

Lemma contingency_spec_perm i i' (flat flat' : list (list N * Z))
    (si : list N) (ci : Z) b :
  NoDup flat.*1 → flat ≡ₚ flat' →
  flat !! i = Some (si, ci) → flat' !! i' = Some (si, ci) →
  contingency_spec i flat.*1 flat.*2 b
  = contingency_spec i' flat'.*1 flat'.*2 b.
Proof.
  intros Hnd Hp Hi Hi'.
  assert (NoDup flat'.*1) as Hnd' by (by rewrite <- Hp).
  unfold contingency_spec. rewrite !length_fmap.
  rewrite (bucket_weight_key i flat si ci), (bucket_weight_key i' flat' si ci)
    by done.
  rewrite !firstn_all, !list_lookup_fmap, Hi, Hi'. simpl.
  by rewrite (key_weight_perm si b flat flat' Hp).
Qed.

(** The contingency vector of a key is the same under every order of the
    table. *)
Lemma contingency_perm i i' (flat flat' : list (list N * Z))
    (si : list N) (ci : Z) (v v' : list R) :
  NoDup flat.*1 → flat ≡ₚ flat' →
  flat !! i = Some (si, ci) → flat' !! i' = Some (si, ci) →
  contingency i flat.*1 flat.*2 = Some v →
  contingency i' flat'.*1 flat'.*2 = Some v' → v = v'.
Proof.
  intros Hnd Hp Hi Hi' Hv Hv'.
  destruct (contingency_Some i flat.*1 flat.*2 si v) as [Hlen Hspec];
    [by rewrite list_lookup_fmap, Hi | done |].
  destruct (contingency_Some i' flat'.*1 flat'.*2 si v') as [Hlen' Hspec'];
    [by rewrite list_lookup_fmap, Hi' | done |].
  apply list_eq. intros b. destruct (decide (b < 2 ^ length si)) as [Hb|Hb].
  - rewrite Hspec, Hspec' by done. f_equal. by eapply contingency_spec_perm.
  - rewrite !lookup_ge_None_2 by lia. done.
Qed.

(** The row that the driver emits for entry [i] of the table. *)
Lemma qatd_cpp_sequences_from_row join (flat : list (list N * Z))
    (types_ : list string) (count_min : Z) (method : string) (df : DataFrame)
    i (s : list N) (c : Z) :
  qatd_cpp_sequences_from join flat types_ count_min method = Returned df →
  flat !! i = Some (s, c) →
  ∃ l g,
    row_at df i = Some (join s types_ " ", c, Z.of_nat (length s), l, g, s)
    ∧ if decide (length s = 1 ∨ (c < uint_to_int count_min)%Z)
      then l = None ∧ g = None
      else ∃ v, contingency i flat.*1 flat.*2 = Some v
                ∧ g = (if decide (method = "unigram")
                       then sigma_uni v (length s) else sigma_all v)
                ∧ l = (if decide (method = "unigram")
                       then lambda_uni v (length s)
                       else lambda_all v (length s)).
Proof.
  unfold qatd_cpp_sequences_from.
  destruct (for_each _ _ _) as [[ss ls]|] eqn:Hloop; [|done].
  intros [= <-] Hi. unfold row_at. simpl.
  rewrite !list_lookup_fmap, Hi. simpl.
  assert (i < length flat) as Hlt by (by eapply lookup_lt_Some).
  destruct (decide (length s = 1 ∨ (c < uint_to_int count_min)%Z))
    as [Hskip|Hpass].
  - destruct (estimates_loop_frame _ _ _ _ _ _ _ _ _ i Hloop) as [Hs Hl].
    { exists s, c. by rewrite !list_lookup_fmap, Hi. }
    rewrite Hs, Hl. unfold DoubleParams_new.
    rewrite lookup_replicate_2 by done. simpl. by exists None, None.
  - destruct (estimates_loop_slot _ _ _ _ _ _ _ _ _ i s c Hloop)
      as (v & Hv & Hs & Hl).
    + by rewrite length_fmap.
    + by rewrite list_lookup_fmap, Hi.
    + by rewrite list_lookup_fmap, Hi.
    + tauto.
    + destruct (decide (uint_to_int count_min ≤ c)%Z); [done|].
      exfalso. apply Hpass. right. lia.
    + rewrite Hs, Hl. simpl. do 2 eexists. split; [done|]. by exists v.
Qed.

Lemma qatd_cpp_sequences_from_index join (flat : list (list N * Z))
    (types_ : list string) (count_min : Z) (method : string) (df : DataFrame)
    i r :
  qatd_cpp_sequences_from join flat types_ count_min method = Returned df →
  row_at df i = Some r → ∃ s c, flat !! i = Some (s, c).
Proof.
  unfold qatd_cpp_sequences_from.
  destruct (for_each _ _ _) as [[ss ls]|]; [|done].
  intros [= <-]. unfold row_at. simpl. rewrite !list_lookup_fmap.
  destruct (flat !! i) as [[s c]|]; [by eexists _, _ | done].
Qed.

Lemma qatd_cpp_sequences_from_rows join (flat flat' : list (list N * Z))
    (types_ : list string) (count_min : Z) (method : string)
    (df df' : DataFrame) i r :
  NoDup flat.*1 → flat ≡ₚ flat' →
  qatd_cpp_sequences_from join flat types_ count_min method = Returned df →
  qatd_cpp_sequences_from join flat' types_ count_min method = Returned df' →
  row_at df i = Some r → ∃ i', row_at df' i' = Some r.
Proof.
  intros Hnd Hp Hdf Hdf' Hr.
  destruct (qatd_cpp_sequences_from_index _ _ _ _ _ _ _ _ Hdf Hr)
    as (s & c & Hi).
  destruct (qatd_cpp_sequences_from_row _ _ _ _ _ _ _ _ _ Hdf Hi)
    as (l & g & Hrow & Hlg).
  rewrite Hrow in Hr. injection Hr as <-.
  assert ((s, c) ∈ flat') as [i' Hi']%list_elem_of_lookup_1
    by (rewrite <- Hp; by eapply list_elem_of_lookup_2).
  exists i'.
  destruct (qatd_cpp_sequences_from_row _ _ _ _ _ _ _ _ _ Hdf' Hi')
    as (l' & g' & Hrow' & Hlg').
  rewrite Hrow'.
  destruct (decide (length s = 1 ∨ (c < uint_to_int count_min)%Z)).
  - destruct Hlg as [-> ->], Hlg' as [-> ->]. done.
  - destruct Hlg as (v & Hv & -> & ->), Hlg' as (v' & Hv' & -> & ->).
    by rewrite (contingency_perm i i' flat flat' s c v v').
Qed.

Lemma qatd_cpp_sequences_from_length join (flat : list (list N * Z))
    (types_ : list string) (count_min : Z) (method : string) (df : DataFrame) :
  qatd_cpp_sequences_from join flat types_ count_min method = Returned df →
  length (tokens df) = length flat.
Proof.
  unfold qatd_cpp_sequences_from.
  destruct (for_each _ _ _) as [[ss ls]|]; [|done].
  intros [= <-]. simpl. by rewrite length_fmap.
Qed.

(** With keys of at most 31 tokens the driver returns, in whatever order it
    takes the table. *)
Lemma qatd_cpp_sequences_from_defined join (flat : list (list N * Z))
    (types_ : list string) (count_min : Z) (method : string) :
  (∀ s, s ∈ flat.*1 → length s ≤ 31) →
  ∃ df, qatd_cpp_sequences_from join flat types_ count_min method
        = Returned df.
Proof.
  intros Hshort. unfold qatd_cpp_sequences_from.
  destruct (estimates_loop_defined flat.*1 flat.*2 method
              (uint_to_int count_min) (seq 0 (length flat.*1))
              (DoubleParams_new (length flat)) (DoubleParams_new (length flat)))
    as [[ss ls] Hloop].
  - intros i Hi%elem_of_seq. lia.
  - by rewrite !length_fmap.
  - unfold DoubleParams_new. by rewrite length_replicate, length_fmap.
  - unfold DoubleParams_new. by rewrite length_replicate, length_fmap.
  - done.
  - rewrite Hloop. by eexists.
Qed.

(** X24: the rows of the result depend neither on the order of the texts of
    the corpus nor on the order in which the frequency table is walked
    (lines 225-229 iterate a [std::unordered_map]): for two orderings of the
    same corpus and any iteration order of each table, two runs that return
    give data frames with the same number of rows and the same rows. *)
Theorem qatd_cpp_sequences_order
    (join : list N → list string → string → string)
    (texts texts' : list (list N)) (types_ : list string) (count_min : Z)
    (len_min len_max : nat) (method : string) (nested : bool)
    (flat flat' : list (list N * Z)) (df df' : DataFrame) :
  texts ≡ₚ texts' →
  flat ≡ₚ map_to_list (count_texts texts len_min len_max nested) →
  flat' ≡ₚ map_to_list (count_texts texts' len_min len_max nested) →
  qatd_cpp_sequences_from join flat types_ count_min method = Returned df →
  qatd_cpp_sequences_from join flat' types_ count_min method = Returned df' →
  length (tokens df) = length (tokens df')
  ∧ ∀ r, (∃ i, row_at df i = Some r) ↔ (∃ i', row_at df' i' = Some r).
Proof.
  intros Hp Hflat Hflat' Hdf Hdf'.
  assert (flat ≡ₚ flat') as Hpf.
  { rewrite Hflat, Hflat'. unfold count_texts.
    by rewrite (foldl_counts_perm texts texts' ∅ len_min len_max nested Hp). }
  assert (NoDup flat.*1) as Hnd
    by (rewrite Hflat; apply NoDup_fst_map_to_list).
  assert (NoDup flat'.*1) as Hnd' by (by rewrite <- Hpf).
  split.
  - rewrite (qatd_cpp_sequences_from_length _ _ _ _ _ _ Hdf).
    rewrite (qatd_cpp_sequences_from_length _ _ _ _ _ _ Hdf').
    by apply Permutation_length.
  - intros r. split; intros [i Hr].
    + by eapply (qatd_cpp_sequences_from_rows join flat flat').
    + by eapply (qatd_cpp_sequences_from_rows join flat' flat).
Qed.

Lemma qatd_cpp_sequences_order_witness :
  ∃ df df',
    qatd_cpp_sequences_from join_none [([1; 2]%N, 1%Z); ([2; 3]%N, 2%Z)] []
      1%Z "lambda" = Returned df
    ∧ qatd_cpp_sequences_from join_none [([2; 3]%N, 2%Z); ([1; 2]%N, 1%Z)] []
        1%Z "lambda" = Returned df'
    ∧ length (tokens df) = length (tokens df')
    ∧ ∀ r, (∃ i, row_at df i = Some r) ↔ (∃ i', row_at df' i' = Some r).
Proof.
  destruct (qatd_cpp_sequences_from_defined join_none
              [([1; 2]%N, 1%Z); ([2; 3]%N, 2%Z)] [] 1%Z "lambda") as [df Hdf].
  { intros s Hs. repeat (apply elem_of_cons in Hs as [->|Hs]; [simpl; lia|]).
    by apply elem_of_nil in Hs. }
  destruct (qatd_cpp_sequences_from_defined join_none
              [([2; 3]%N, 2%Z); ([1; 2]%N, 1%Z)] [] 1%Z "lambda") as [df' Hdf'].
  { intros s Hs. repeat (apply elem_of_cons in Hs as [->|Hs]; [simpl; lia|]).
    by apply elem_of_nil in Hs. }
  exists df, df'. split; [done|]. split; [done|].
  apply (qatd_cpp_sequences_order join_none [[1; 2; 3]; [2; 3]]%N
           [[2; 3]; [1; 2; 3]]%N [] 1%Z 2 2 "lambda" true
           [([1; 2]%N, 1%Z); ([2; 3]%N, 2%Z)]
           [([2; 3]%N, 2%Z); ([1; 2]%N, 1%Z)] df df').
  - apply perm_swap.
  - vm_compute. first [apply Permutation_refl | apply perm_swap].
  - vm_compute. first [apply Permutation_refl | apply perm_swap].
  - done.
  - done.
Defined.

(** ** Ranges that the specification wants rejected *)

Lemma scan_starts_first (text : list N) (len_max : nat) (nested : bool) :
  text ≠ [] → 0 ∈ scan_starts text len_max nested.
Proof.
  intros Hne. unfold scan_starts.
  rewrite decide_False by (destruct text; [done | simpl; lia]).
  replace (length (text ++ [0%N])) with (S (length text))
    by (rewrite length_app; simpl; lia).
  destruct nested.
  - apply elem_of_seq. lia.
  - cbn [unnested_starts].
    rewrite decide_True by (rewrite length_app; simpl; lia). left.
Qed.

(** With [len_min = 0] the run that starts at the first position of a text
    is counted, however short it is. *)
Lemma counts_first_run (text : list N) (counts_seq : gmap (list N) Z)
    (len_max : nat) (nested : bool) :
  text ≠ [] →
  is_Some (counts text counts_seq 0 len_max nested
             !! run (text ++ [0%N]) len_max).
Proof.
  intros Hne. rewrite counts_lookup. simpl.
  assert (hits (text ++ [0%N]) 0 len_max (run (text ++ [0%N]) len_max)
            (scan_starts text len_max nested) ≠ 0) as Hh.
  { unfold hits. intros Hz. apply length_zero_iff_nil in Hz.
    assert (0 ∈ filter (λ i, run (drop i (text ++ [0%N])) len_max
                             = run (text ++ [0%N]) len_max
                             ∧ 0 ≤ length (run (text ++ [0%N]) len_max))
                  (scan_starts text len_max nested)) as Hin.
    { apply list_elem_of_filter. split; [split; [done | lia]|].
      by apply scan_starts_first. }
    rewrite Hz in Hin. by apply elem_of_nil in Hin. }
  destruct (counts_seq !! _); [by eexists|].
  rewrite decide_False by done. by eexists.
Qed.

Lemma foldl_counts_keeps (texts : list (list N)) (counts_seq : gmap (list N) Z)
    (len_min len_max : nat) (nested : bool) (key : list N) :
  is_Some (counts_seq !! key) →
  is_Some (foldl (λ m t, counts t m len_min len_max nested) counts_seq texts
             !! key).
Proof.
  revert counts_seq. induction texts as [|text texts IH]; intros tbl Hk; [done|].
  simpl. apply IH. rewrite counts_lookup. simpl.
  destruct Hk as [c ->]. by eexists.
Qed.

Lemma count_texts_first_run (texts : list (list N)) (len_max : nat)
    (nested : bool) (text : list N) :
  text ∈ texts → text ≠ [] →
  ∃ c, count_texts texts 0 len_max nested !! run (text ++ [0%N]) len_max
       = Some c ∧ (1 ≤ c)%Z.
Proof.
  intros Hin Hne.
  assert (is_Some (count_texts texts 0 len_max nested
                     !! run (text ++ [0%N]) len_max)) as [c Hc].
  { unfold count_texts. apply list_elem_of_split in Hin as (l1 & l2 & ->).
    rewrite foldl_app. simpl. apply foldl_counts_keeps.
    by apply counts_first_run. }
  exists c. split; [done|]. by eapply count_texts_inv.
Qed.

(** C7 (amended): no input is rejected, whatever [len_min] and [len_max]:
    the driver validates nothing and surfaces no error.  When
    [len_min > len_max] no run is long enough to be counted, so the
    frequency table stays empty and the result has no rows.  When
    [len_min = 0] the run that starts at the first position of each
    non-empty text is counted whatever its length: it is in the frequency
    table with a count of at least 1.  Whenever [len_max ≤ 31] the run
    returns a data frame. *)
Theorem qatd_cpp_sequences_no_validation
    (join : list N → list string → string → string) (texts : list (list N))
    (types_ : list string) (count_min : Z) (len_min len_max : nat)
    (method : string) (nested : bool) :
  (∀ e, qatd_cpp_sequences join texts types_ count_min len_min len_max method
          nested ≠ Raised e)
  ∧ (len_max < len_min →
     count_texts texts len_min len_max nested = ∅
     ∧ qatd_cpp_sequences join texts types_ count_min len_min len_max method
         nested = Returned empty_frame)
  ∧ (len_min = 0 →
     ∀ text, text ∈ texts → text ≠ [] →
       ∃ c, count_texts texts len_min len_max nested
              !! run (text ++ [0%N]) len_max = Some c
            ∧ (1 ≤ c)%Z)
  ∧ (len_max ≤ 31 →
     ∃ df, qatd_cpp_sequences join texts types_ count_min len_min len_max
             method nested = Returned df).
Proof.
  split; [intros e; apply qatd_cpp_sequences_not_raised|]. split; [|split].
  - intros H. split; [by apply count_texts_short|].
    unfold qatd_cpp_sequences. by rewrite count_texts_short.
  - intros -> text Hin Hne. by apply count_texts_first_run.
  - intros Hmax. rewrite qatd_cpp_sequences_from_table.
    apply qatd_cpp_sequences_from_defined.
    intros s [c Hc]%flat_keys. apply count_texts_inv in Hc. lia.
Qed.

Lemma qatd_cpp_sequences_no_validation_witness :
  (count_texts [[1; 2; 3]; [4; 5]]%N 3 2 true = ∅
   ∧ qatd_cpp_sequences join_none [[1; 2; 3]; [4; 5]]%N [] 1%Z 3 2 "unigram"
       true = Returned empty_frame)
  ∧ (∃ c, count_texts [[1; 2; 3]; [4; 5]]%N 0 2 false
            !! run ([1; 2; 3]%N ++ [0%N]) 2 = Some c
          ∧ (1 ≤ c)%Z)
  ∧ ∃ df, qatd_cpp_sequences join_none [[1; 2; 3]; [4; 5]]%N [] 1%Z 0 2
            "unigram" false = Returned df.
Proof.
  split; [|split].
  - apply (qatd_cpp_sequences_no_validation join_none [[1; 2; 3]; [4; 5]]%N []
             1%Z 3 2 "unigram" true).
    lia.
  - apply (qatd_cpp_sequences_no_validation join_none [[1; 2; 3]; [4; 5]]%N []
             1%Z 0 2 "unigram" false); [reflexivity | by left | done].
  - apply (qatd_cpp_sequences_no_validation join_none [[1; 2; 3]; [4; 5]]%N []
             1%Z 0 2 "unigram" false).
    lia.
Defined.
